(** * scrape_wb: the category walk of [WildberriesScraper]

    A shallow embedding of [src/scrape_wb.py]: the pydantic [Category]
    tree, the decoded JSON of the filter endpoint, the [safe_api_call]
    wrapper, the body of [_fetch_items], and the asyncio walk of
    [_process_all] / [_recurse] as a scheduler-indexed step function over
    a tree of pending coroutines sharing one semaphore. *)

From Stdlib Require Import ZArith String Ascii.
From stdpp Require Import base tactics option list strings.

Local Open Scope Z_scope.
Local Open Scope string_scope.
Local Open Scope list_scope.

(** ** Data model *)

(** [class Category(BaseModel)]: [childs] is an optional list of
    categories. The induction principles of the two nested types are
    stated by hand below. *)
Local Unset Elimination Schemes.

Inductive Category : Type := mkCategory {
  cat_id : Z;
  cat_name : string;
  cat_shard : option string;
  cat_query : option string;
  cat_url : option string;
  cat_childs : option (list Category)
}.

(** A value produced by [resp.json()]: what Python's decoder returns. A
    str is the sequence of its UTF-8 bytes, so two are equal exactly when
    Python finds them equal; a float keeps the text of its literal; a
    dict is kept as its list of items. *)
Inductive PyVal : Type :=
| PNone
| PBool (b : bool)
| PInt (n : Z)
| PFloat (literal : string)
| PStr (s : string)
| PList (l : list PyVal)
| PDict (items : list (string * PyVal)).

(** A coroutine of the walk, as far as it has got.
    - [Ready]: a [_recurse] call handed to [asyncio.gather], not yet run;
    - [Gather]: a [_recurse] (or [_process_all]) suspended in
      [await asyncio.gather(...)] on its children;
    - [Acquire]: a [_fetch_items] suspended in [async with self.semaphore],
      waiting for a slot;
    - [InFlight]: a [_fetch_items] holding a slot, suspended in
      [await self.client.get(url)];
    - [Done]: returned. *)
Inductive Task : Type :=
| Ready (cat : Category) (depth : Z) (parent_id : option Z) (sheet : string)
| Gather (subs : list Task)
| Acquire (cat : Category) (sheet : string)
| InFlight (cat : Category) (sheet : string)
| Done.

Local Set Elimination Schemes.

(** The exceptions that the two wrapped coroutines can raise. *)
Inductive Exn : Type :=
| TransportError (msg : string)      (* raised by [self.client.get] *)
| JSONDecodeError (msg : string)     (* raised by [resp.json()] *)
| ValidationError (msg : string)     (* raised when a [Category] is built *)
| AttributeError (ty attr : string)  (* 'ty' object has no attribute 'attr' *)
| TypeError (ty : string).           (* 'ty' object is not iterable *)

(** The argument tuple of one [ExcelSaver.write] call. *)
Record FlatRecord : Type := mkRecord {
  r_sheet : string;
  r_id : PyVal;
  r_name : PyVal;
  r_depth : Z;
  r_parent : option Z
}.

(** What the run does to the outside, in the order it does it. *)
Inductive Event : Type :=
| EWrite (r : FlatRecord)            (* [self.excel.write(...)] *)
| EError (func : string) (e : Exn)   (* [print(f"Error in {func.__name__}: {e}")] *)
| ESave                              (* [self.excel.save()] *)
| EClose                             (* [self.client.aclose()] *)
| EBenchmark (func : string).        (* [print(f"{func.__name__} completed in ...")] *)

(** ** Python truthiness and dict access *)

(** [bool(s)] for an [Optional[str]]. *)
Definition truthy_str (s : option string) : bool :=
  match s with
  | Some (String _ _) => true
  | _ => false
  end.

(** The list iterated by [for sub in cat.childs]; empty exactly when
    [cat.childs] is falsy. *)
Definition children (cat : Category) : list Category :=
  match cat_childs cat with
  | Some l => l
  | None => []
  end.

(** [bool(cat.childs)]. *)
Definition truthy_childs (cat : Category) : bool :=
  match children cat with
  | [] => false
  | _ :: _ => true
  end.

(** [cat.shard and cat.query], as a condition. *)
Definition has_lookup (cat : Category) : bool :=
  truthy_str (cat_shard cat) && truthy_str (cat_query cat).

Definition py_type (v : PyVal) : string :=
  match v with
  | PNone => "NoneType"
  | PBool _ => "bool"
  | PInt _ => "int"
  | PFloat _ => "float"
  | PStr _ => "str"
  | PList _ => "list"
  | PDict _ => "dict"
  end.

Fixpoint assoc (k : string) (items : list (string * PyVal)) : option PyVal :=
  match items with
  | [] => None
  | (k', v) :: rest => if String.eqb k k' then Some v else assoc k rest
  end.

(** [v.get(key, dflt)]: only a dict has the method. *)
Definition py_get (v : PyVal) (key : string) (dflt : PyVal) : Exn + PyVal :=
  match v with
  | PDict items => inr (default dflt (assoc key items))
  | _ => inl (AttributeError (py_type v) "get")
  end.

(** The elements visited by [for x in v]. A dict yields its keys and a
    str its characters (here one per byte: every element is a str either
    way, and there is none exactly when the string is empty). *)
Definition py_iter (v : PyVal) : Exn + list PyVal :=
  match v with
  | PList l => inr l
  | PDict items => inr (map (fun kv => PStr (fst kv)) items)
  | PStr s => inr (map (fun c => PStr (String c EmptyString)) (list_ascii_of_string s))
  | _ => inl (TypeError (py_type v))
  end.

(** [v == s] for a str [s]. *)
Definition py_eq_str (v : PyVal) (s : string) : bool :=
  match v with
  | PStr s' => String.eqb s' s
  | _ => false
  end.

(** [isinstance(v, list)]. *)
Definition is_list (v : PyVal) : bool :=
  match v with
  | PList _ => true
  | _ => false
  end.

(** ** Code that writes records and may raise

    [Emit A] is a computation that has written some records and then
    either raised or returned: records written before a [raise] stay
    written. *)
Definition Emit (A : Type) : Type := list FlatRecord * (Exn + A).

Definition ret {A} (a : A) : Emit A := ([], inr a).
Definition raise {A} (e : Exn) : Emit A := ([], inl e).
Definition lift {A} (x : Exn + A) : Emit A := ([], x).
Definition emit (r : FlatRecord) : Emit unit := ([r], inr tt).

Definition bind {A B} (m : Emit A) (k : A -> Emit B) : Emit B :=
  match m with
  | (w, inl e) => (w, inl e)
  | (w, inr a) => let (w', r) := k a in (w ++ w', r)
  end.

Notation "'let*' x ':=' m 'in' k" := (bind m (fun x => k))
  (at level 10, x name, m at level 100, k at level 200, only parsing).

(** [for x in l: body(x)] *)
Fixpoint for_each {A} (l : list A) (body : A -> Emit unit) : Emit unit :=
  match l with
  | [] => ret tt
  | x :: rest => let* _ := body x in for_each rest body
  end.

Definition written {A} (m : Emit A) : list FlatRecord := fst m.
Definition raised {A} (m : Emit A) : option Exn :=
  match snd m with
  | inl e => Some e
  | inr _ => None
  end.

(** ** Constants *)

Definition MAIN_MENU_URL : string :=
  "https://static-basket-01.wbbasket.ru/vol0/data/main-menu-by-ru-v2.json".

(** [FILTER_API.format(shard=..., query=...)]; [None] formats as "None". *)
Definition FILTER_API (shard query : option string) : string :=
  "https://catalog.wb.ru/catalog/" ++ default "None" shard
  ++ "/v4/filters?appType=1&" ++ default "None" query
  ++ "&curr=rub&dest=-59202".

(** The group label compared against in [_fetch_items] ("Category"). *)
Definition CATEGORY_LABEL : string := "Категория".

(** [asyncio.Semaphore(30)] *)
Definition SEMAPHORE_SLOTS : nat := 30.

(** ** ExcelSaver

    [self.sheets] as the list of sheet names in creation order, each with
    the rows appended to its worksheet; [saved] lists the file names
    handed to [workbook.save]. The worksheet titles ([name[:31]]) and the
    removal of the default sheet live in openpyxl and are left out, and
    openpyxl's [create_sheet], [append] and [save] are taken to return. *)
Definition Row : Type := list PyVal.

Record ExcelSaver : Type := mkExcel {
  sheets : list (string * list Row);
  saved : list string
}.

Definition new_excel : ExcelSaver := mkExcel [] [].

Definition HEADER : Row := [PStr "ID"; PStr "Name"; PStr "Depth"; PStr "Parent"].

Fixpoint has_sheet (nm : string) (ss : list (string * list Row)) : bool :=
  match ss with
  | [] => false
  | (k, _) :: rest => String.eqb nm k || has_sheet nm rest
  end.

(** [get_sheet]: create the sheet with its header row when it is new. *)
Definition get_sheet (nm : string) (ss : list (string * list Row))
  : list (string * list Row) :=
  if has_sheet nm ss then ss else ss ++ [(nm, [HEADER])].

Fixpoint append_row (nm : string) (row : Row) (ss : list (string * list Row))
  : list (string * list Row) :=
  match ss with
  | [] => []
  | (k, rows) :: rest =>
      if String.eqb nm k then (k, rows ++ [row]) :: rest
      else (k, rows) :: append_row nm row rest
  end.

(** [write]: the row is [[item_id, name, depth, parent or 0]]. *)
Definition write (x : ExcelSaver) (r : FlatRecord) : ExcelSaver :=
  mkExcel
    (append_row (r_sheet r)
       [r_id r; r_name r; PInt (r_depth r); PInt (default 0 (r_parent r))]
       (get_sheet (r_sheet r) (sheets x)))
    (saved x).

(** [save(filename="wb_cat.xlsx")] *)
Definition save (x : ExcelSaver) : ExcelSaver :=
  mkExcel (sheets x) (saved x ++ ["wb_cat.xlsx"]).

Definition excel_event (x : ExcelSaver) (ev : Event) : ExcelSaver :=
  match ev with
  | EWrite r => write x r
  | ESave => save x
  | _ => x
  end.

(** The workbook after a run with the given events. *)
Definition excel_after (evs : list Event) : ExcelSaver :=
  fold_left excel_event evs new_excel.

(** The records written, in order. *)
Fixpoint records (evs : list Event) : list FlatRecord :=
  match evs with
  | [] => []
  | EWrite r :: rest => r :: records rest
  | _ :: rest => records rest
  end.

(** The diagnostics printed by [safe_api_call], in order. *)
Fixpoint diagnostics (evs : list Event) : list (string * Exn) :=
  match evs with
  | [] => []
  | EError f e :: rest => (f, e) :: diagnostics rest
  | _ :: rest => diagnostics rest
  end.

(** ** The remote endpoints and the wrapped coroutines *)

Section Scraper.

(** The world outside: what [self.client.get(url)] gives for each URL and
    what [resp.json()] gives for each response, each either raising or
    returning; and what the body of [_fetch_main_menu] gives. *)
Variable Response : Type.
Variable client_get : string -> Exn + Response.
Variable resp_json : Response -> Exn + PyVal.
Variable main_menu : Exn + list Category.

(** The inner [for item in group["items"]] loop of [_fetch_items]. *)
Definition write_items (cat : Category) (sheet : string) (items : list PyVal)
  : Emit unit :=
  for_each items (fun item =>
    let* id := lift (py_get item "id" (PInt 0)) in
    let* nm := lift (py_get item "name" (PStr "Unnamed")) in
    emit (mkRecord sheet id nm 99 (Some (cat_id cat)))).

(** The outer [for group in raw_filters] loop. *)
Definition write_groups (cat : Category) (sheet : string) (groups : list PyVal)
  : Emit unit :=
  for_each groups (fun group =>
    let* gname := lift (py_get group "name" PNone) in
    if py_eq_str gname CATEGORY_LABEL then
      let* items := lift (py_get group "items" PNone) in
      match items with
      | PList its => write_items cat sheet its
      | _ => ret tt
      end
    else ret tt).

(** The body of [_fetch_items] inside [async with self.semaphore]. *)
Definition fetch_items_body (cat : Category) (sheet : string) : Emit unit :=
  let* resp := lift (client_get (FILTER_API (cat_shard cat) (cat_query cat))) in
  let* json := lift (resp_json resp) in
  let* data := lift (py_get json "data" (PDict [])) in
  let* raw_filters := lift (py_get data "filters" (PList [])) in
  let* groups := lift (py_iter raw_filters) in
  write_groups cat sheet groups.

(** [safe_api_call]: what the wrapped call does to the outside. The
    records written before an exception stay; the exception becomes one
    printed line and the call returns [None]. *)
Definition safe_api_call {A} (func : string) (m : Emit A) : list Event :=
  map EWrite (written m) ++
  match raised m with
  | Some e => [EError func e]
  | None => []
  end.

(** What [_fetch_items] does once the response is there. *)
Definition _fetch_items (cat : Category) (sheet : string) : list Event :=
  safe_api_call "_fetch_items" (fetch_items_body cat sheet).

(** ** The walk, one coroutine at a time

    The record written at the top of [_recurse]. *)
Definition own_record (cat : Category) (depth : Z) (parent_id : option Z)
    (sheet : string) : FlatRecord :=
  mkRecord sheet (PInt (cat_id cat)) (PStr (cat_name cat)) depth parent_id.

(** [_recurse] run alone, each child to completion before the next: the
    records of one subtree in depth-first order. The event loop
    interleaves the subtrees differently; see [step_task]. *)
Fixpoint _recurse (cat : Category) (depth : Z) (parent_id : option Z)
    (sheet : string) : list Event :=
  EWrite (own_record cat depth parent_id sheet) ::
  match cat_childs cat with
  | Some ((_ :: _) as subs) =>
      flat_map (fun sub => _recurse sub (depth + 1) (Some (cat_id cat)) sheet) subs
  | _ => if has_lookup cat then _fetch_items cat sheet else []
  end.

(** [_process_all] run alone. *)
Definition walk_all (categories : list Category) : list Event :=
  flat_map (fun cat => _recurse cat 1 None (cat_name cat)) categories.

(** ** The walk under the event loop

    Coroutines run without preemption between two awaits, so a step is
    one coroutine running from one suspension point to the next. Which
    coroutine runs next, which request completes next and which waiter
    gets a freed slot is the schedule's choice. *)

Definition is_done (t : Task) : bool :=
  match t with
  | Done => true
  | _ => false
  end.

(** A [_recurse] call runs from its start to its first suspension:
    line 115 writes the record, then the [if]/[elif] picks the branch.
    In [_fetch_items] a free slot is taken without suspending. *)
Definition _recurse_start (cat : Category) (depth : Z) (parent_id : option Z)
    (sheet : string) (sem : nat) : Task * nat * list Event :=
  let own := EWrite (own_record cat depth parent_id sheet) in
  if truthy_childs cat then
    (Gather (map (fun sub => Ready sub (depth + 1) (Some (cat_id cat)) sheet)
                 (children cat)), sem, [own])
  else if has_lookup cat then
    match sem with
    | S free => (InFlight cat sheet, free, [own])
    | O => (Acquire cat sheet, O, [own])
    end
  else (Done, sem, [own]).

(** One step of the coroutine found at path [p] below [t]; [None] when
    there is no such coroutine or it cannot run now. *)
Fixpoint step_task (p : list nat) (t : Task) (sem : nat)
  : option (Task * nat * list Event) :=
  match p with
  | [] =>
      match t with
      | Ready cat depth parent_id sheet => Some (_recurse_start cat depth parent_id sheet sem)
      | Acquire cat sheet =>
          match sem with
          | S free => Some (InFlight cat sheet, free, [])
          | O => None
          end
      | InFlight cat sheet => Some (Done, S sem, _fetch_items cat sheet)
      | Gather subs => if forallb is_done subs then Some (Done, sem, []) else None
      | Done => None
      end
  | i :: p' =>
      match t with
      | Gather subs =>
          match subs !! i with
          | Some sub =>
              match step_task p' sub sem with
              | Some (sub', sem', evs) => Some (Gather (<[i:=sub']> subs), sem', evs)
              | None => None
              end
          | None => None
          end
      | _ => None
      end
  end.

(** [scrape], as far as it has got. *)
Inductive Phase : Type :=
| FetchingMenu                 (* in [await self._fetch_main_menu()] *)
| Processing (t : Task)        (* in [await self._process_all(catalog)] *)
| Finished.

Record State : Type := mkState {
  phase : Phase;
  semaphore : nat;             (* free slots of [self.semaphore] *)
  trace : list Event
}.

Definition initial : State := mkState FetchingMenu SEMAPHORE_SLOTS [].

(** [_process_all]: one [_recurse] per root, gathered. *)
Definition _process_all (categories : list Category) : Task :=
  Gather (map (fun cat => Ready cat 1 None (cat_name cat)) categories).

(** The tail of [scrape] and the line printed by [benchmark]. *)
Definition finish : list Event := [ESave; EClose; EBenchmark "scrape"].

(** [_fetch_main_menu] under [safe_api_call]: what it prints and what it
    returns, [None] after an exception. *)
Definition _fetch_main_menu : list Event * option (list Category) :=
  (safe_api_call "_fetch_main_menu" (lift main_menu),
   match main_menu with
   | inl _ => None
   | inr categories => Some categories
   end).

(** [scrape] once [_fetch_main_menu] has come back: [if catalog:] skips
    both [None] and the empty list. *)
Definition after_menu (s : State) : State :=
  let (printed, catalog) := _fetch_main_menu in
  match catalog with
  | Some ((_ :: _) as categories) =>
      mkState (Processing (_process_all categories)) (semaphore s)
              (trace s ++ printed)
  | _ => mkState Finished (semaphore s) (trace s ++ printed ++ finish)
  end.

(** One step of the whole run, chosen by [p]. *)
Definition step (p : list nat) (s : State) : option State :=
  match phase s with
  | FetchingMenu => Some (after_menu s)
  | Processing Done => Some (mkState Finished (semaphore s) (trace s ++ finish))
  | Processing t =>
      match step_task p t (semaphore s) with
      | Some (t', sem', evs) => Some (mkState (Processing t') sem' (trace s ++ evs))
      | None => None
      end
  | Finished => None
  end.

(** A run under a schedule: one choice per step. *)
Fixpoint run (sched : list (list nat)) (s : State) : option State :=
  match sched with
  | [] => Some s
  | p :: rest =>
      match step p s with
      | Some s' => run rest s'
      | None => None
      end
  end.

Definition finished (s : State) : bool :=
  match phase s with
  | Finished => true
  | _ => false
  end.

(** The requests in flight: coroutines holding a slot of the semaphore. *)
Fixpoint in_flight (t : Task) : nat :=
  match t with
  | InFlight _ _ => 1
  | Gather subs => list_sum (map in_flight subs)
  | _ => 0
  end%nat.

Definition in_flight_now (s : State) : nat :=
  match phase s with
  | Processing t => in_flight t
  | _ => 0%nat
  end.

(** Whether a coroutine is in [_fetch_items]. *)
Definition fetching (t : Task) : bool :=
  match t with
  | Acquire _ _ | InFlight _ _ => true
  | _ => false
  end.

(** What a coroutine has still to do to the outside, in the order of
    [_recurse]. *)
Fixpoint pending (t : Task) : list Event :=
  match t with
  | Ready cat depth parent_id sheet => _recurse cat depth parent_id sheet
  | Gather subs => flat_map pending subs
  | Acquire cat sheet | InFlight cat sheet => _fetch_items cat sheet
  | Done => []
  end.

Definition pending_now (s : State) : list Event :=
  match phase s with
  | FetchingMenu =>
      match main_menu with
      | inl e => EError "_fetch_main_menu" e :: finish
      | inr categories => walk_all categories ++ finish
      end
  | Processing t => pending t ++ finish
  | Finished => []
  end.

(** A bound on the steps a coroutine has left. *)
Fixpoint cat_weight (cat : Category) : nat :=
  match cat_childs cat with
  | Some subs => 4 + list_sum (map cat_weight subs)
  | None => 4
  end%nat.

Fixpoint task_weight (t : Task) : nat :=
  match t with
  | Ready cat _ _ _ => cat_weight cat
  | Gather subs => 1 + list_sum (map task_weight subs)
  | Acquire _ _ => 2
  | InFlight _ _ => 1
  | Done => 0
  end%nat.

Definition weight (s : State) : nat :=
  match phase s with
  | FetchingMenu =>
      match main_menu with
      | inl _ => 1
      | inr categories => 3 + list_sum (map cat_weight categories)
      end
  | Processing t => 1 + task_weight t
  | Finished => 0
  end%nat.

End Scraper.

(** ** The forest, read as the specification reads it *)

(** Every node below [cat], [cat] included, each with the chain of its
    ancestors, outermost first. *)
Fixpoint occurrences_under (ancestors : list Category) (cat : Category)
  : list (list Category * Category) :=
  (ancestors, cat) ::
  match cat_childs cat with
  | Some subs => flat_map (occurrences_under (ancestors ++ [cat])) subs
  | None => []
  end.

(** Every node of the forest, once per place it occurs at. *)
Definition occurrences (forest : list Category) : list (list Category * Category) :=
  flat_map (occurrences_under []) forest.

(** The top-level ancestor of an occurrence: the node itself for a root. *)
Definition top_level (o : list Category * Category) : Category :=
  hd (snd o) (fst o).

(** The record the specification asks for at an occurrence: depth one
    more than the number of ancestors, parent the innermost ancestor. *)
Definition node_record (o : list Category * Category) : FlatRecord :=
  mkRecord (cat_name (top_level o))
           (PInt (cat_id (snd o))) (PStr (cat_name (snd o)))
           (1 + Z.of_nat (length (fst o)))
           (cat_id <$> last (fst o)).

(** A leaf with lookup parameters, as [_recurse] tests it. *)
Definition is_lookup_leaf (cat : Category) : bool :=
  negb (truthy_childs cat) && has_lookup cat.

(** The record of one facet item. *)
Definition facet_record (cat : Category) (sheet : string) (item : PyVal) : FlatRecord :=
  mkRecord sheet
           (match item with PDict kv => default (PInt 0) (assoc "id" kv) | _ => PNone end)
           (match item with PDict kv => default (PStr "Unnamed") (assoc "name" kv) | _ => PNone end)
           99 (Some (cat_id cat)).

(** The items of a filter group that carries the category label and a
    list of items; no items for any other group. *)
Definition category_items (group : PyVal) : list PyVal :=
  match group with
  | PDict kv =>
      if py_eq_str (default PNone (assoc "name" kv)) CATEGORY_LABEL then
        match assoc "items" kv with
        | Some (PList items) => items
        | _ => []
        end
      else []
  | _ => []
  end.

Definition is_dict (v : PyVal) : bool :=
  match v with
  | PDict _ => true
  | _ => false
  end.

(** The groups of a decoded response of the shape
    [{data: {filters: [group...]}}]. *)
Definition filter_groups (json : PyVal) : option (list PyVal) :=
  match json with
  | PDict top =>
      match assoc "data" top with
      | Some (PDict data) =>
          match assoc "filters" data with
          | Some (PList groups) => Some groups
          | _ => None
          end
      | _ => None
      end
  | _ => None
  end.

(** A response of that shape whose groups are objects and whose category
    items are objects. *)
Definition well_shaped (json : PyVal) (groups : list PyVal) : Prop :=
  filter_groups json = Some groups /\
  forallb is_dict groups = true /\
  forallb is_dict (flat_map category_items groups) = true.

(** The four ways the group data of a decoded response can be absent or
    malformed: no [data] key; no [filters] key; no group with the category
    label; the labelled groups have no list of items. *)
Inductive GroupDataAbsent : PyVal -> Prop :=
| no_data top :
    assoc "data" top = None ->
    GroupDataAbsent (PDict top)
| no_filters top data :
    assoc "data" top = Some (PDict data) ->
    assoc "filters" data = None ->
    GroupDataAbsent (PDict top)
| no_category_group top data groups :
    assoc "data" top = Some (PDict data) ->
    assoc "filters" data = Some (PList groups) ->
    Forall (fun g => exists kv, g = PDict kv /\
              py_eq_str (default PNone (assoc "name" kv)) CATEGORY_LABEL = false) groups ->
    GroupDataAbsent (PDict top)
| items_not_a_list top data groups :
    assoc "data" top = Some (PDict data) ->
    assoc "filters" data = Some (PList groups) ->
    Forall (fun g => exists kv, g = PDict kv /\
              (py_eq_str (default PNone (assoc "name" kv)) CATEGORY_LABEL = true ->
               is_list (default PNone (assoc "items" kv)) = false)) groups ->
    GroupDataAbsent (PDict top).

Arguments write_items cat sheet items : assert.
Arguments fetch_items_body {Response} client_get resp_json cat sheet.
Arguments _fetch_items {Response} client_get resp_json cat sheet.
Arguments _recurse {Response} client_get resp_json cat depth parent_id sheet.
Arguments walk_all {Response} client_get resp_json categories.
Arguments _recurse_start cat depth parent_id sheet sem : assert.
Arguments step_task {Response} client_get resp_json p t sem.
Arguments _fetch_main_menu main_menu : assert.
Arguments after_menu main_menu s : assert.
Arguments step {Response} client_get resp_json main_menu p s.
Arguments run {Response} client_get resp_json main_menu sched s.
Arguments pending {Response} client_get resp_json t.
Arguments pending_now {Response} client_get resp_json main_menu s.
Arguments weight main_menu s : assert.

(** The facet records a node adds to the output: those [_fetch_items]
    writes for a leaf with lookup parameters, none for any other node. *)
Definition facet_records {Response} (client_get : string -> Exn + Response)
    (resp_json : Response -> Exn + PyVal) (o : list Category * Category)
  : list FlatRecord :=
  if is_lookup_leaf (snd o) then
    written (fetch_items_body client_get resp_json (snd o) (cat_name (top_level o)))
  else [].

(** ** Worked examples

    The forest of the specification's scenario: [A] with one child [A1],
    and [B], a leaf with lookup parameters. Responses are given as their
    decoded bodies. *)
Module Scenario.

Definition A1 : Category := mkCategory 2 "A1" None None None None.
Definition A : Category := mkCategory 1 "A" None None None (Some [A1]).
Definition B : Category := mkCategory 3 "B" (Some "s1") (Some "q1") None None.
Definition forest : list Category := [A; B].

Definition decode (resp : PyVal) : Exn + PyVal := inr resp.

(** One category group with the facet [F1], after a group of another name. *)
Definition one_facet : PyVal :=
  PDict [("data", PDict [("filters", PList [
    PDict [("name", PStr "Brand"); ("items", PList [PDict [("id", PInt 5)]])];
    PDict [("name", PStr CATEGORY_LABEL);
           ("items", PList [PDict [("id", PInt 10); ("name", PStr "F1")]])]])])].

(** A category group whose second item is a number, not an object. *)
Definition broken_item : PyVal :=
  PDict [("data", PDict [("filters", PList [
    PDict [("name", PStr CATEGORY_LABEL);
           ("items", PList [PDict [("id", PInt 10); ("name", PStr "F1")];
                            PInt 7])]])])].

(** A category group with an item that has neither id nor name. *)
Definition bare_item : PyVal :=
  PDict [("data", PDict [("filters", PList [
    PDict [("name", PStr "Brand"); ("items", PList [PDict [("id", PInt 5)]])];
    PDict [("name", PStr CATEGORY_LABEL);
           ("items", PList [PDict [("id", PInt 10); ("name", PStr "F1")];
                            PDict []])]])])].

(** A category group whose items are [null]. *)
Definition null_items : PyVal :=
  PDict [("data", PDict [("filters", PList [
    PDict [("name", PStr "Brand"); ("items", PList [PDict [("id", PInt 5)]])];
    PDict [("name", PStr CATEGORY_LABEL); ("items", PNone)]])])].

Definition answers (body : PyVal) (url : string) : Exn + PyVal := inr body.
Definition times_out (url : string) : Exn + PyVal := inl (TransportError "timed out").

Definition F1 : FlatRecord := mkRecord "B" (PInt 10) (PStr "F1") 99 (Some 3).

(** Two schedules of the same walk: the roots first, as the event loop
    starts them, and [A]'s subtree first. *)
Definition roots_first : list (list nat) :=
  [[]; [0]; [1]; [0; 0]; [1]; [0]; []; []]%nat.
Definition subtree_first : list (list nat) :=
  [[]; [1]; [1]; [0]; [0; 0]; [0]; []; []]%nat.

(** A leaf whose shard is present but empty. *)
Definition empty_shard : Category :=
  mkCategory 7 "C" (Some "") (Some "q") None None.

(** Thirty-one lookup leaves, and the schedule that starts them all. *)
Definition crowd : list Category := repeat B 31.
Definition start_all : list (list nat) := [] :: map (fun i => [i]) (seq 0 31).

(** Where the two schedules end when [B]'s lookup answers [one_facet]. *)
Definition roots_first_end : State :=
  default initial (run (answers one_facet) decode (inr forest) roots_first initial).
Definition subtree_first_end : State :=
  default initial (run (answers one_facet) decode (inr forest) subtree_first initial).

(** Where [roots_first] ends when [B]'s lookup times out. *)
Definition timed_out_end : State :=
  default initial (run times_out decode (inr forest) roots_first initial).

(** The groups of [bare_item]. *)
Definition bare_groups : list PyVal :=
  default [] (filter_groups bare_item).

(** Where [roots_first] ends when [B]'s lookup answers [broken_item]. *)
Definition broken_end : State :=
  default initial (run (answers broken_item) decode (inr forest) roots_first initial).

(** Where a run ends when the menu cannot be fetched. *)
Definition no_menu : Exn + list Category := inl (TransportError "timed out").
Definition no_menu_end : State :=
  default initial (run (answers one_facet) decode no_menu [[]] initial).

(** The crowd once every leaf has been started. *)
Definition crowd_started : State :=
  default initial (run (answers one_facet) decode (inr crowd) start_all initial).

End Scenario.

(** ** The workbook, read back *)

(** [self.sheets[nm]]: the rows of the worksheet kept under [nm], when
    there is one. *)
Fixpoint sheet_rows (nm : string) (ss : list (string * list Row))
  : option (list Row) :=
  match ss with
  | [] => None
  | (k, rows) :: rest => if String.eqb nm k then Some rows else sheet_rows nm rest
  end.

(** The row [write] appends for a record. *)
Definition row_of (r : FlatRecord) : Row :=
  [r_id r; r_name r; PInt (r_depth r); PInt (default 0 (r_parent r))].

(** The records written to the sheet [nm], in order. *)
Definition on_sheet (nm : string) (rs : list FlatRecord) : list FlatRecord :=
  List.filter (fun r => String.eqb (r_sheet r) nm) rs.

(** An event of the walk itself: a record written or a diagnostic
    printed, as against the three events that end [scrape]. *)
Definition is_output (ev : Event) : bool :=
  match ev with
  | EWrite _ | EError _ _ => true
  | _ => false
  end.

(** ** More readings of the forest and of the facets *)

(** The line [safe_api_call] prints for a node: the one of a lookup leaf
    whose [_fetch_items] raises, none for any other node. *)
Definition lookup_diagnostics {Response} (client_get : string -> Exn + Response)
    (resp_json : Response -> Exn + PyVal) (o : list Category * Category)
  : list (string * Exn) :=
  if is_lookup_leaf (snd o) then
    match raised (fetch_items_body client_get resp_json (snd o)
                                   (cat_name (top_level o))) with
    | Some e => [("_fetch_items", e)]
    | None => []
    end
  else [].

(** A facet record handed to another leaf and sheet: the id and name of
    the item stay, the parent and the sheet are the new ones. *)
Definition retarget (cat : Category) (sheet : string) (r : FlatRecord) : FlatRecord :=
  mkRecord sheet (r_id r) (r_name r) (r_depth r) (Some (cat_id cat)).

(** [rs] holds a record with the given id on the given sheet. *)
Definition has_row (rs : list FlatRecord) (id : Z) (sheet : string) : Prop :=
  exists r, In r rs /\ r_id r = PInt id /\ r_sheet r = sheet.

(** Every record that names a parent comes after a record with that id
    on the same sheet. *)
Definition parents_first (evs : list Event) : Prop :=
  forall before r after p,
    evs = before ++ EWrite r :: after ->
    r_parent r = Some p ->
    has_row (records before) p (r_sheet r).

(** The records written so far cover what a coroutine still has to
    write: the parent of a call not yet run, the leaf of a fetch. *)
Local Unset Elimination Schemes.
Inductive Announced (rs : list FlatRecord) : Task -> Prop :=
| announced_root cat depth sheet :
    Announced rs (Ready cat depth None sheet)
| announced_child cat depth p sheet :
    has_row rs p sheet ->
    Announced rs (Ready cat depth (Some p) sheet)
| announced_gather subs :
    Forall (Announced rs) subs ->
    Announced rs (Gather subs)
| announced_acquire cat sheet :
    has_row rs (cat_id cat) sheet ->
    Announced rs (Acquire cat sheet)
| announced_in_flight cat sheet :
    has_row rs (cat_id cat) sheet ->
    Announced rs (InFlight cat sheet)
| announced_done :
    Announced rs Done.
Local Set Elimination Schemes.

(** More answers of the filter endpoint, and a second leaf with the
    lookup parameters of [Scenario.B]. *)
Module Answers.

Definition B2 : Category := mkCategory 4 "B2" (Some "s1") (Some "q1") None None.

(** The items of [Scenario.broken_item]'s category group. *)
Definition good_items : list PyVal := [PDict [("id", PInt 10); ("name", PStr "F1")]].

(** A list where an object is expected. *)
Definition not_an_object : PyVal := PList [PInt 1].

(** [{"data": null}] *)
Definition null_data : PyVal := PDict [("data", PNone)].

(** [{"data": {"filters": null}}] and [{"data": {"filters": ""}}] *)
Definition null_filters : PyVal := PDict [("data", PDict [("filters", PNone)])].
Definition empty_string_filters : PyVal :=
  PDict [("data", PDict [("filters", PStr "")])].

(** A labelled group, then a number where a group is expected. *)
Definition group_then_number : list PyVal :=
  [PDict [("name", PStr CATEGORY_LABEL); ("items", PList good_items)]; PInt 7;
   PDict [("name", PStr CATEGORY_LABEL); ("items", PList good_items)]].

End Answers.

(** ** The fetches of a walk *)

(** The fetches [_recurse] makes below [cat]: every leaf with lookup
    parameters, with the sheet it writes to. *)
Fixpoint lookups_under (cat : Category) (sheet : string)
  : list (Category * string) :=
  match cat_childs cat with
  | Some ((_ :: _) as subs) => flat_map (fun sub => lookups_under sub sheet) subs
  | _ => if has_lookup cat then [(cat, sheet)] else []
  end.

(** The fetches of [_process_all]. *)
Definition forest_lookups (forest : list Category) : list (Category * string) :=
  flat_map (fun root => lookups_under root (cat_name root)) forest.

(** The fetches a coroutine has still to finish. *)
Fixpoint pending_lookups (t : Task) : list (Category * string) :=
  match t with
  | Ready cat _ _ sheet => lookups_under cat sheet
  | Gather subs => flat_map pending_lookups subs
  | Acquire cat sheet | InFlight cat sheet => [(cat, sheet)]
  | Done => []
  end.

(** [block] stands in [evs] in one piece. *)
Definition in_one_piece (block evs : list Event) : Prop :=
  exists before after, evs = before ++ block ++ after.

(** The events of the fetch of [leaf] stand in [evs] in one piece. *)
Definition fetched_whole {Response} (client_get : string -> Exn + Response)
    (resp_json : Response -> Exn + PyVal) (evs : list Event)
    (leaf : Category * string) : Prop :=
  in_one_piece (_fetch_items client_get resp_json (fst leaf) (snd leaf)) evs.

(** The fetches finished so far stand in the trace, each in one piece. *)
Definition lookups_settled {Response} (client_get : string -> Exn + Response)
    (resp_json : Response -> Exn + PyVal) (forest : list Category) (s : State)
  : Prop :=
  match phase s with
  | FetchingMenu => True
  | Processing t =>
      exists fetched,
        fetched ++ pending_lookups t ≡ₚ forest_lookups forest /\
        Forall (fetched_whole client_get resp_json (trace s)) fetched
  | Finished =>
      Forall (fetched_whole client_get resp_json (trace s)) (forest_lookups forest)
  end.

(** * Facts *)

(** ** Induction over the nested types *)

Fixpoint Category_ind (P : Category -> Prop)
    (step_case : forall cat, Forall P (children cat) -> P cat)
    (cat : Category) {struct cat} : P cat.
Proof.
  apply step_case.
  destruct cat as [i n sh q u [subs|]]; cbn; [|constructor].
  induction subs as [|sub subs IH]; constructor.
  - apply Category_ind, step_case.
  - exact IH.
Qed.

Fixpoint Task_ind (P : Task -> Prop)
    (ready : forall cat depth parent_id sheet, P (Ready cat depth parent_id sheet))
    (gather : forall subs, Forall P subs -> P (Gather subs))
    (acquire : forall cat sheet, P (Acquire cat sheet))
    (inflight : forall cat sheet, P (InFlight cat sheet))
    (done : P Done)
    (t : Task) {struct t} : P t.
Proof.
  destruct t as [cat d pid sh|subs|cat sh|cat sh|]; auto.
  apply gather.
  induction subs as [|sub subs IH]; constructor.
  - now apply Task_ind.
  - exact IH.
Qed.

(** ** Lists *)

Lemma flat_map_map_compose {A B C} (f : B -> list C) (g : A -> B) (l : list A) :
  flat_map f (map g l) = flat_map (fun x => f (g x)) l.
Proof. induction l as [|x l IH]; cbn; [reflexivity | now rewrite IH]. Qed.

Lemma flat_map_perm_ext {A B} (f g : A -> list B) (l : list A) :
  Forall (fun x => f x ≡ₚ g x) l -> flat_map f l ≡ₚ flat_map g l.
Proof.
  induction 1 as [|x l Hx _ IH]; cbn; [reflexivity | now rewrite Hx, IH].
Qed.

Lemma flat_map_split_perm {A B} (f g : A -> list B) (l : list A) :
  flat_map (fun x => f x ++ g x) l ≡ₚ flat_map f l ++ flat_map g l.
Proof.
  induction l as [|x l IH]; cbn; [reflexivity|].
  rewrite IH, <- !app_assoc.
  apply Permutation_app_head.
  rewrite !app_assoc.
  apply Permutation_app_tail, Permutation_app_comm.
Qed.

Lemma insert_middle {A} (l : list A) (i : nat) (x y : A) :
  l !! i = Some x ->
  exists before after,
    l = before ++ x :: after /\ <[i:=y]> l = before ++ y :: after.
Proof.
  intros Hi. exists (take i l), (drop (S i) l). split.
  - symmetry. now apply take_drop_middle.
  - apply insert_take_drop. now apply lookup_lt_Some in Hi.
Qed.

Lemma list_sum_insert {A} (f : A -> nat) (l : list A) (i : nat) (x y : A) :
  l !! i = Some x ->
  (list_sum (map f (<[i:=y]> l)) + f x = list_sum (map f l) + f y)%nat.
Proof.
  intros Hi. destruct (insert_middle l i x y Hi) as (l1 & l2 & Hl & ->).
  subst l. rewrite !map_app, !list_sum_app. cbn. lia.
Qed.

Lemma flat_map_insert_perm {A B} (f : A -> list B) (l : list A) (i : nat)
    (x y : A) (extra : list B) :
  l !! i = Some x ->
  extra ++ f y ≡ₚ f x ->
  extra ++ flat_map f (<[i:=y]> l) ≡ₚ flat_map f l.
Proof.
  intros Hi Hxy. destruct (insert_middle l i x y Hi) as (l1 & l2 & Hl & ->).
  subst l. rewrite !flat_map_app. cbn. rewrite <- Hxy.
  rewrite !app_assoc.
  apply Permutation_app_tail, Permutation_app_tail, Permutation_app_comm.
Qed.

(** ** Events *)

Lemma records_app (a b : list Event) : records (a ++ b) = records a ++ records b.
Proof.
  induction a as [|ev a IH]; [reflexivity|].
  destruct ev; cbn; now rewrite ?IH.
Qed.

Lemma records_writes (l : list FlatRecord) : records (map EWrite l) = l.
Proof. induction l as [|r l IH]; cbn; [reflexivity | now rewrite IH]. Qed.

Lemma records_perm (a b : list Event) : a ≡ₚ b -> records a ≡ₚ records b.
Proof.
  induction 1 as [|ev a b _ IH|x y a|a b c _ IH1 _ IH2].
  - reflexivity.
  - destruct ev; cbn; try assumption. now constructor.
  - destruct x, y; cbn; try reflexivity. apply perm_swap.
  - now transitivity (records b).
Qed.

Lemma diagnostics_app (a b : list Event) :
  diagnostics (a ++ b) = diagnostics a ++ diagnostics b.
Proof.
  induction a as [|ev a IH]; [reflexivity|].
  destruct ev; cbn; now rewrite ?IH.
Qed.

Lemma diagnostics_writes (l : list FlatRecord) : diagnostics (map EWrite l) = [].
Proof. induction l as [|r l IH]; cbn; [reflexivity | exact IH]. Qed.

Lemma diagnostics_perm (a b : list Event) : a ≡ₚ b -> diagnostics a ≡ₚ diagnostics b.
Proof.
  induction 1 as [|ev a b _ IH|x y a|a b c _ IH1 _ IH2].
  - reflexivity.
  - destruct ev; cbn; try assumption. now constructor.
  - destruct x, y; cbn; try reflexivity. apply perm_swap.
  - now transitivity (diagnostics b).
Qed.

Lemma records_flat_map {A} (f : A -> list Event) (l : list A) :
  records (flat_map f l) = flat_map (fun x => records (f x)) l.
Proof.
  induction l as [|x l IH]; cbn; [reflexivity|].
  now rewrite records_app, IH.
Qed.


(** ** One step of one coroutine *)

Section Steps.

Context {Response : Type}.
Variable client_get : string -> Exn + Response.
Variable resp_json : Response -> Exn + PyVal.

Local Abbreviation _recurse' := (_recurse client_get resp_json).
Local Abbreviation _fetch_items' := (_fetch_items client_get resp_json).
Local Abbreviation step_task' := (step_task client_get resp_json).
Local Abbreviation pending' := (pending client_get resp_json).

(** [_recurse] by the conditions of the source's [if] / [elif]. *)
Lemma recurse_unfold cat depth parent_id sheet :
  _recurse' cat depth parent_id sheet =
  EWrite (own_record cat depth parent_id sheet) ::
  if truthy_childs cat then
    flat_map (fun sub => _recurse' sub (depth + 1) (Some (cat_id cat)) sheet)
             (children cat)
  else if has_lookup cat then _fetch_items' cat sheet
  else [].
Proof. destruct cat as [i n sh q u [[|sub subs]|]]; reflexivity. Qed.

Lemma cat_weight_unfold cat :
  cat_weight cat = (4 + list_sum (map cat_weight (children cat)))%nat.
Proof. destruct cat as [i n sh q u [subs|]]; reflexivity. Qed.

Lemma pending_done subs :
  forallb is_done subs = true -> flat_map pending' subs = [].
Proof.
  induction subs as [|[] subs IH]; cbn; try discriminate; auto.
Qed.

Lemma in_flight_done subs :
  forallb is_done subs = true -> list_sum (map in_flight subs) = 0%nat.
Proof.
  induction subs as [|[] subs IH]; cbn; try discriminate; auto.
Qed.

Lemma task_weight_done subs :
  forallb is_done subs = true -> list_sum (map task_weight subs) = 0%nat.
Proof.
  induction subs as [|[] subs IH]; cbn; try discriminate; auto.
Qed.

Lemma in_flight_ready depth parent_id (sheet : Category -> string) subs :
  list_sum (map in_flight
    (map (fun sub => Ready sub depth parent_id (sheet sub)) subs)) = 0%nat.
Proof. induction subs as [|sub subs IH]; cbn; [reflexivity | exact IH]. Qed.

Lemma task_weight_ready depth parent_id (sheet : Category -> string) subs :
  list_sum (map task_weight
    (map (fun sub => Ready sub depth parent_id (sheet sub)) subs))
  = list_sum (map cat_weight subs).
Proof.
  induction subs as [|sub subs IH]; [reflexivity|].
  cbn. f_equal. exact IH.
Qed.

(** What [_recurse_start] does, gathered for the three facts below. *)
Lemma recurse_start_spec cat depth parent_id sheet sem t' sem' evs :
  _recurse_start cat depth parent_id sheet sem = (t', sem', evs) ->
  evs ++ pending' t' ≡ₚ _recurse' cat depth parent_id sheet /\
  (in_flight t' + sem' = sem)%nat /\
  (task_weight t' < cat_weight cat)%nat.
Proof.
  unfold _recurse_start. rewrite recurse_unfold, cat_weight_unfold.
  destruct (truthy_childs cat) eqn:Hch.
  - intros [= <- <- <-]. cbn [pending in_flight task_weight].
    rewrite flat_map_map_compose.
    rewrite (in_flight_ready _ _ (fun _ => sheet)).
    rewrite (task_weight_ready _ _ (fun _ => sheet)).
    split; [reflexivity|]. lia.
  - assert (children cat = []) as ->
      by (unfold truthy_childs in Hch; destruct (children cat); congruence).
    destruct (has_lookup cat).
    + destruct sem; intros [= <- <- <-]; cbn; repeat split; lia || reflexivity.
    + intros [= <- <- <-]; cbn; repeat split; lia || reflexivity.
Qed.

(** A step moves events from what is pending' to the trace, keeps the
    slots held and free at the same total, and uses up weight. *)
Lemma step_task_spec p : forall t sem t' sem' evs,
  step_task' p t sem = Some (t', sem', evs) ->
  evs ++ pending' t' ≡ₚ pending' t /\
  (in_flight t' + sem' = in_flight t + sem)%nat /\
  (task_weight t' < task_weight t)%nat.
Proof.
  induction p as [|i p IH]; intros t sem t' sem' evs; cbn.
  - destruct t as [cat d pid sh|subs|cat sh|cat sh|].
    + intros [= H]. apply recurse_start_spec in H. cbn. intuition lia.
    + destruct (forallb is_done subs) eqn:Hd; [|discriminate].
      intros [= <- <- <-]. cbn.
      rewrite pending_done, in_flight_done, task_weight_done by assumption.
      repeat split; lia || reflexivity.
    + destruct sem; [discriminate|]. intros [= <- <- <-]. cbn.
      repeat split; lia || reflexivity.
    + intros [= <- <- <-]. cbn. rewrite app_nil_r.
      repeat split; lia || reflexivity.
    + discriminate.
  - destruct t as [cat d pid sh|subs|cat sh|cat sh|]; try discriminate.
    destruct (subs !! i) as [sub|] eqn:Hi; [|discriminate].
    destruct (step_task' p sub sem) as [[[sub' sem1] evs1]|] eqn:Hs; [|discriminate].
    intros [= <- <- <-]. apply IH in Hs as (Hp & Hf & Hw). cbn.
    split; [now apply flat_map_insert_perm with (x := sub)|].
    pose proof (list_sum_insert in_flight subs i sub sub' Hi).
    pose proof (list_sum_insert task_weight subs i sub sub' Hi).
    lia.
Qed.

(** A coroutine that is not done can take a step, unless every slot is
    taken by a request of some other coroutine. *)
Lemma step_task_progress sem t :
  is_done t = true \/
  (exists p r, step_task' p t sem = Some r) \/
  (sem = 0%nat /\ in_flight t = 0%nat).
Proof.
  induction t as [cat d pid sh|subs IH|cat sh|cat sh|] using Task_ind.
  - right; left. exists [], (_recurse_start cat d pid sh sem). reflexivity.
  - right.
    destruct (forallb is_done subs) eqn:Hd.
    { left. exists []. cbn. rewrite Hd. eauto. }
    assert ((exists i sub p r, subs !! i = Some sub /\ step_task' p sub sem = Some r) \/
            (list_sum (map in_flight subs) = 0%nat /\
             (forallb is_done subs = false -> sem = 0%nat))) as [Hstep|[Hfl Hsem]].
    { clear Hd. induction IH as [|sub subs Hsub _ IHsubs].
      - right. split; [reflexivity | discriminate].
      - destruct Hsub as [Hdone|[(p & r & Hs)|[Hsem Hfl]]].
        + destruct IHsubs as [(i & sub' & p & r & Hi & Hs)|[Hfl Hsem]].
          * left. exists (S i), sub', p, r. auto.
          * right. destruct sub; try discriminate. cbn. auto.
        + left. exists 0%nat, sub, p, r. auto.
        + destruct IHsubs as [(i & sub' & p & r & Hi & Hs)|[Hfl' Hsem']].
          * left. exists (S i), sub', p, r. auto.
          * right. cbn. split; [rewrite Hfl; exact Hfl' | auto]. }
    + destruct Hstep as (i & sub & p & [[sub' sem'] evs] & Hi & Hs).
      left. exists (i :: p). cbn. rewrite Hi, Hs. eauto.
    + right. cbn. auto.
  - destruct sem.
    + right; right. auto.
    + right; left. exists []. cbn. eauto.
  - right; left. exists []. cbn. eauto.
  - left. reflexivity.
Qed.

End Steps.

(** ** Runs of [scrape] *)

Section Runs.

Context {Response : Type}.
Variable client_get : string -> Exn + Response.
Variable resp_json : Response -> Exn + PyVal.
Variable main_menu : Exn + list Category.

Local Abbreviation step' := (step client_get resp_json main_menu).
Local Abbreviation run' := (run client_get resp_json main_menu).
Local Abbreviation pending_now' := (pending_now client_get resp_json main_menu).
Local Abbreviation weight' := (weight main_menu).

Lemma pending_process_all categories :
  pending client_get resp_json (_process_all categories)
  = walk_all client_get resp_json categories.
Proof. cbn. apply flat_map_map_compose. Qed.

(** A step appends to the trace what it takes from the pending events,
    keeps held and free slots at the same total and uses up weight. *)
Lemma step_spec p s s' :
  step' p s = Some s' ->
  (exists evs, trace s' = trace s ++ evs /\ evs ++ pending_now' s' ≡ₚ pending_now' s) /\
  (in_flight_now s' + semaphore s' = in_flight_now s + semaphore s)%nat /\
  (weight' s' < weight' s)%nat.
Proof.
  destruct s as [ph sem tr]. unfold step, pending_now,
    weight, in_flight_now. cbn [phase semaphore trace].
  destruct ph as [|t|].
  - intros [= <-]. unfold after_menu, _fetch_main_menu, safe_api_call.
    destruct main_menu as [e|[|cat categories]];
      cbn [lift written raised fst snd map app phase semaphore trace].
    + split; [|lia]. eexists; split; [reflexivity|]. now rewrite app_nil_r.
    + split; [|cbn; lia]. eexists; split; [reflexivity|]. now rewrite app_nil_r.
    + split.
      * exists []. rewrite pending_process_all. auto.
      * cbn [_process_all in_flight task_weight].
        rewrite in_flight_ready, task_weight_ready, map_cons. lia.
  - assert (forall r, match step_task client_get resp_json p t sem with
                      | Some (t', sem', evs) =>
                          Some (mkState (Processing t') sem' (tr ++ evs))
                      | None => None
                      end = Some r ->
            (exists evs, trace r = tr ++ evs /\
               evs ++ pending_now' r ≡ₚ pending client_get resp_json t ++ finish) /\
            (in_flight_now r + semaphore r = in_flight t + sem)%nat /\
            (weight' r < 1 + task_weight t)%nat) as Hgen.
    { intros r.
      destruct (step_task client_get resp_json p t sem)
        as [[[t' sem'] evs]|] eqn:Hs; [|discriminate].
      intros [= <-]. apply step_task_spec in Hs as (Hp & Hf & Hw).
      unfold pending_now, weight, in_flight_now.
      cbn [phase semaphore trace].
      split; [|lia]. exists evs. split; [reflexivity|].
      now rewrite app_assoc, Hp. }
    destruct t; try exact (Hgen s').
    intros [= <-]. cbn. split; [|lia].
    eexists; split; [reflexivity|]. now rewrite app_nil_r.
  - discriminate.
Qed.

Lemma run_app a b s :
  run' (a ++ b) s = run' a s ≫= run' b.
Proof.
  revert s. induction a as [|p a IH]; intros s; cbn; [reflexivity|].
  destruct (step' p s); cbn; auto.
Qed.

(** Along a run the trace and the pending events together stay the same
    up to order, the slots stay at the same total, and the run is no
    longer than the weight it uses up. *)
Lemma run_spec sched : forall s s',
  run' sched s = Some s' ->
  trace s' ++ pending_now' s' ≡ₚ trace s ++ pending_now' s /\
  (in_flight_now s' + semaphore s' = in_flight_now s + semaphore s)%nat /\
  (length sched + weight' s' <= weight' s)%nat.
Proof.
  induction sched as [|p sched IH]; intros s s'; cbn.
  - intros [= <-]. repeat split; lia || reflexivity.
  - destruct (step' p s) as [s1|] eqn:H1; [|discriminate].
    intros H2. apply IH in H2 as (Hp & Hf & Hw).
    apply step_spec in H1 as ((evs & Htr & Hev) & Hf1 & Hw1).
    split; [|lia].
    rewrite Hp, Htr, <- app_assoc. now apply Permutation_app_head.
Qed.

(** No deadlock: with the slots accounted for, a run that has not
    finished has a next step. *)
Lemma step_progress s :
  (in_flight_now s + semaphore s = SEMAPHORE_SLOTS)%nat ->
  finished s = false ->
  exists p s', step' p s = Some s'.
Proof.
  destruct s as [ph sem tr]. unfold step, in_flight_now, finished.
  cbn [phase semaphore trace]. intros Hslots Hfin.
  destruct ph as [|t|]; [exists []; eauto| |discriminate].
  destruct (step_task_progress client_get resp_json sem t)
    as [Hd|[(p & [[t' sem'] evs] & Hs)|[H0 Hfl]]].
  - destruct t; try discriminate. exists []. eauto.
  - exists p. rewrite Hs. destruct t; eauto.
  - unfold SEMAPHORE_SLOTS in Hslots. lia.
Qed.

(** Every run that has its slots accounted for can be carried on to the
    end of [scrape]. *)
Lemma run_completes s :
  (in_flight_now s + semaphore s = SEMAPHORE_SLOTS)%nat ->
  exists sched s', run' sched s = Some s' /\ finished s' = true.
Proof.
  remember (weight' s) as w eqn:Hw. revert s Hw.
  induction w as [w IH] using lt_wf_ind. intros s -> Hslots.
  destruct (finished s) eqn:Hfin.
  - exists [], s. auto.
  - destruct (step_progress s Hslots Hfin) as (p & s1 & H1).
    pose proof (step_spec p s s1 H1) as (_ & Hf & Hlt).
    destruct (IH (weight' s1) Hlt s1 eq_refl) as (sched & s' & Hrun & Hdone);
      [lia|].
    exists (p :: sched), s'. cbn. rewrite H1. auto.
Qed.

End Runs.

(** ** The body of [_fetch_items] *)

Lemma bind_written {A B} (m : Emit A) (k : A -> Emit B) :
  written (bind m k) =
  written m ++ match snd m with
               | inl _ => []
               | inr a => written (k a)
               end.
Proof.
  destruct m as [w [e|a]]; cbn; [now rewrite app_nil_r|].
  now destruct (k a).
Qed.

Lemma bind_lift {A B} (x : Exn + A) (k : A -> Emit B) :
  bind (lift x) k = match x with
                    | inl e => ([], inl e)
                    | inr a => k a
                    end.
Proof. destruct x as [e|a]; cbn; [reflexivity | now destruct (k a)]. Qed.

(** Every record of the inner loop is a facet of [cat] on [sheet]. *)
Lemma write_items_facets cat sheet items :
  Forall (fun r => r_depth r = 99 /\ r_parent r = Some (cat_id cat) /\ r_sheet r = sheet)
         (written (write_items cat sheet items)).
Proof.
  induction items as [|item items IH]; [constructor|].
  unfold write_items in *. cbn [for_each]. rewrite bind_written.
  apply Forall_app. split.
  - rewrite !bind_lift.
    destruct (py_get item "id" (PInt 0)); [constructor|].
    rewrite bind_lift.
    destruct (py_get item "name" (PStr "Unnamed")); repeat constructor.
  - destruct (snd _); [constructor | exact IH].
Qed.

Lemma write_groups_facets cat sheet groups :
  Forall (fun r => r_depth r = 99 /\ r_parent r = Some (cat_id cat) /\ r_sheet r = sheet)
         (written (write_groups cat sheet groups)).
Proof.
  induction groups as [|group groups IH]; [constructor|].
  unfold write_groups in *. cbn [for_each]. rewrite bind_written.
  apply Forall_app. split.
  - rewrite bind_lift.
    destruct (py_get group "name" PNone) as [e|gname]; [constructor|].
    destruct (py_eq_str gname CATEGORY_LABEL); [|constructor].
    rewrite bind_lift.
    destruct (py_get group "items" PNone) as [e|[]]; try constructor.
    apply write_items_facets.
  - destruct (snd _); [constructor | exact IH].
Qed.

(** The inner loop over items that are all objects. *)
Lemma write_items_dicts cat sheet items :
  forallb is_dict items = true ->
  write_items cat sheet items = (map (facet_record cat sheet) items, inr tt).
Proof.
  induction items as [|item items IH]; [reflexivity|].
  cbn [forallb]. intros [Hd Hrest]%andb_prop.
  unfold write_items in *. cbn [for_each]. rewrite (IH Hrest).
  destruct item; try discriminate. reflexivity.
Qed.

(** The outer loop over groups that are all objects, the items of the
    category groups being objects too. *)
Lemma write_groups_dicts cat sheet groups :
  forallb is_dict groups = true ->
  forallb is_dict (flat_map category_items groups) = true ->
  write_groups cat sheet groups =
  (flat_map (fun g => map (facet_record cat sheet) (category_items g)) groups, inr tt).
Proof.
  induction groups as [|group groups IH]; [reflexivity|].
  cbn [forallb flat_map]. rewrite forallb_app.
  intros [Hd Hrest]%andb_prop [Hitems Hrest']%andb_prop.
  unfold write_groups in *. cbn [for_each]. rewrite (IH Hrest Hrest').
  destruct group as [| | | | | |kv]; try discriminate.
  cbn [py_get category_items] in *. rewrite bind_lift.
  destruct (py_eq_str (default PNone (assoc "name" kv)) CATEGORY_LABEL);
    [|reflexivity].
  rewrite bind_lift.
  destruct (assoc "items" kv) as [[| | | | |its|]|]; try reflexivity.
  cbn [default from_option id]. rewrite (write_items_dicts _ _ _ Hitems).
  reflexivity.
Qed.

(** The outer loop over groups none of which has both the label and a
    list of items. *)
Lemma write_groups_nothing cat sheet groups :
  Forall (fun g => exists kv, g = PDict kv /\
            (py_eq_str (default PNone (assoc "name" kv)) CATEGORY_LABEL = true ->
             is_list (default PNone (assoc "items" kv)) = false)) groups ->
  write_groups cat sheet groups = ([], inr tt).
Proof.
  induction 1 as [|group groups (kv & -> & Hkv) _ IH]; [reflexivity|].
  unfold write_groups in *. cbn [for_each]. rewrite IH.
  cbn [py_get]. rewrite bind_lift.
  destruct (py_eq_str (default PNone (assoc "name" kv)) CATEGORY_LABEL);
    [|reflexivity].
  rewrite bind_lift. specialize (Hkv eq_refl).
  destruct (default PNone (assoc "items" kv)); try discriminate; reflexivity.
Qed.

Lemma records_safe_api_call {A} func (m : Emit A) :
  records (safe_api_call func m) = written m.
Proof.
  unfold safe_api_call. rewrite records_app, records_writes.
  destruct (raised m); cbn; now rewrite app_nil_r.
Qed.

Lemma diagnostics_safe_api_call {A} func (m : Emit A) :
  diagnostics (safe_api_call func m) =
  match raised m with
  | Some e => [(func, e)]
  | None => []
  end.
Proof.
  unfold safe_api_call. rewrite diagnostics_app, diagnostics_writes.
  now destruct (raised m).
Qed.

Section Fetch.

Context {Response : Type}.
Variable client_get : string -> Exn + Response.
Variable resp_json : Response -> Exn + PyVal.

Local Abbreviation fetch_items_body' := (fetch_items_body client_get resp_json).
Local Abbreviation _fetch_items' := (_fetch_items client_get resp_json).

(** Whatever the endpoint answers, what is written are facets of [cat]. *)
Lemma fetch_items_body_facets cat sheet :
  Forall (fun r => r_depth r = 99 /\ r_parent r = Some (cat_id cat) /\ r_sheet r = sheet)
         (written (fetch_items_body' cat sheet)).
Proof.
  unfold fetch_items_body.
  rewrite bind_lift. destruct (client_get _) as [e|resp]; [constructor|].
  rewrite bind_lift. destruct (resp_json resp) as [e|json]; [constructor|].
  rewrite bind_lift. destruct (py_get json _ _) as [e|data]; [constructor|].
  rewrite bind_lift. destruct (py_get data _ _) as [e|raw]; [constructor|].
  rewrite bind_lift. destruct (py_iter raw) as [e|groups]; [constructor|].
  apply write_groups_facets.
Qed.

End Fetch.

(** ** The workbook of the scenario *)

(** One sheet per root, each with its header; a missing parent is
    written as 0. *)
Example scenario_workbook :
  excel_after (trace Scenario.roots_first_end)
  = mkExcel
      [("A", [HEADER;
              [PInt 1; PStr "A"; PInt 1; PInt 0];
              [PInt 2; PStr "A1"; PInt 2; PInt 1]]);
       ("B", [HEADER;
              [PInt 3; PStr "B"; PInt 1; PInt 0];
              [PInt 10; PStr "F1"; PInt 99; PInt 3]])]
      ["wb_cat.xlsx"].
Proof. reflexivity. Qed.

(** ** The walk against the forest *)

Example scenario_occurrences :
  occurrences Scenario.forest
  = [([], Scenario.A); ([Scenario.A], Scenario.A1); ([], Scenario.B)].
Proof. reflexivity. Qed.

Lemma occurrences_under_unfold ancestors cat :
  occurrences_under ancestors cat =
  (ancestors, cat) ::
  flat_map (occurrences_under (ancestors ++ [cat])) (children cat).
Proof. destruct cat as [i n sh q u [subs|]]; reflexivity. Qed.

Lemma map_flat_map {A B C} (f : B -> C) (g : A -> list B) (l : list A) :
  map f (flat_map g l) = flat_map (fun x => map f (g x)) l.
Proof.
  induction l as [|x l IH]; cbn; [reflexivity|].
  now rewrite map_app, IH.
Qed.

Lemma flat_map_flat_map {A B C} (f : B -> list C) (g : A -> list B) (l : list A) :
  flat_map f (flat_map g l) = flat_map (fun x => flat_map f (g x)) l.
Proof.
  induction l as [|x l IH]; cbn; [reflexivity|].
  now rewrite flat_map_app, IH.
Qed.

Lemma flat_map_cons_eq {A B} (f : A -> list B) (x : A) (l : list A) :
  flat_map f (x :: l) = f x ++ flat_map f l.
Proof. reflexivity. Qed.

Lemma hd_snoc (ancestors : list Category) (cat sub : Category) :
  hd sub (ancestors ++ [cat]) = hd cat ancestors.
Proof. now destruct ancestors. Qed.

Section Forest.

Context {Response : Type}.
Variable client_get : string -> Exn + Response.
Variable resp_json : Response -> Exn + PyVal.

Local Abbreviation _recurse' := (_recurse client_get resp_json).
Local Abbreviation facets := (facet_records client_get resp_json).

(** [_recurse], called on a node with the depth, parent and sheet that
    its ancestors give it, writes the record of every node below it and
    the facets of every lookup leaf below it. *)
Lemma recurse_occurrences cat : forall ancestors,
  records (_recurse' cat (1 + Z.of_nat (length ancestors))
                 (cat_id <$> last ancestors)
                 (cat_name (hd cat ancestors)))
  ≡ₚ map node_record (occurrences_under ancestors cat)
     ++ flat_map facets (occurrences_under ancestors cat).
Proof.
  induction cat as [cat IH] using Category_ind. intros ancestors.
  rewrite recurse_unfold, occurrences_under_unfold.
  cbn [records]. rewrite map_cons, flat_map_cons_eq, <- app_comm_cons.
  change (own_record cat _ _ _) with (node_record (ancestors, cat)).
  apply Permutation_skip.
  unfold facet_records at 1, is_lookup_leaf. cbn [snd top_level fst].
  destruct (truthy_childs cat) eqn:Hch; cbn [negb andb].
  - rewrite app_nil_l, records_flat_map, map_flat_map, flat_map_flat_map.
    rewrite <- flat_map_split_perm.
    apply flat_map_perm_ext.
    eapply Forall_impl; [exact IH|]. intros sub Hsub. cbn beta.
    specialize (Hsub (ancestors ++ [cat])).
    rewrite length_app, last_snoc, hd_snoc in Hsub. cbn in Hsub.
    rewrite <- Hsub.
    replace (1 + Z.of_nat (length ancestors + 1)) with
      (1 + Z.of_nat (length ancestors) + 1) by lia.
    reflexivity.
  - assert (children cat = []) as ->
      by (unfold truthy_childs in Hch; destruct (children cat); congruence).
    cbn. rewrite app_nil_r.
    destruct (has_lookup cat); [|reflexivity].
    unfold _fetch_items. now rewrite records_safe_api_call.
Qed.

Lemma walk_all_occurrences forest :
  records (walk_all client_get resp_json forest)
  ≡ₚ map node_record (occurrences forest) ++ flat_map facets (occurrences forest).
Proof.
  unfold walk_all, occurrences.
  rewrite records_flat_map, map_flat_map, flat_map_flat_map.
  rewrite <- flat_map_split_perm.
  apply flat_map_perm_ext, Forall_forall. intros root _.
  apply (recurse_occurrences root []).
Qed.

(** Everything [_recurse] writes goes to the sheet it was given. *)
Lemma recurse_sheet cat : forall depth parent_id sheet,
  Forall (fun r => r_sheet r = sheet) (records (_recurse' cat depth parent_id sheet)).
Proof.
  induction cat as [cat IH] using Category_ind. intros depth parent_id sheet.
  rewrite recurse_unfold. cbn [records]. constructor; [reflexivity|].
  destruct (truthy_childs cat).
  - rewrite records_flat_map. apply Forall_flat_map.
    eapply Forall_impl; [exact IH|]. intros sub Hsub. apply Hsub.
  - destruct (has_lookup cat); [|constructor].
    unfold _fetch_items. rewrite records_safe_api_call.
    eapply Forall_impl; [apply fetch_items_body_facets|].
    intros r (_ & _ & Hs). exact Hs.
Qed.

(** The first ancestor of every occurrence is a root of the forest. *)
Lemma occurrences_under_top cat : forall ancestors o,
  In o (occurrences_under ancestors cat) ->
  top_level o = hd cat ancestors.
Proof.
  induction cat as [cat IH] using Category_ind. intros ancestors o.
  rewrite occurrences_under_unfold. intros [<-|Hin]; [reflexivity|].
  apply in_flat_map in Hin as (sub & Hsub & Hin).
  rewrite Forall_forall in IH.
  rewrite (IH sub (proj2 (list_elem_of_In _ _) Hsub) _ _ Hin).
  apply hd_snoc.
Qed.

Lemma occurrences_top forest o :
  In o (occurrences forest) -> In (top_level o) forest.
Proof.
  unfold occurrences. intros (root & Hroot & Hin)%in_flat_map.
  now rewrite (occurrences_under_top root [] o Hin).
Qed.

End Forest.

(** ** Finished runs *)

Section Finished.

Context {Response : Type}.
Variable client_get : string -> Exn + Response.
Variable resp_json : Response -> Exn + PyVal.
Variable main_menu : Exn + list Category.

Local Abbreviation run' := (run client_get resp_json main_menu).

(** The slots are accounted for in every state a run reaches. *)
Lemma run_slots sched s :
  run' sched initial = Some s ->
  (in_flight_now s + semaphore s = SEMAPHORE_SLOTS)%nat.
Proof.
  intros Hrun. apply run_spec in Hrun as (_ & Hf & _).
  now rewrite Hf.
Qed.

(** A finished run has done, in some order, what the run of each
    coroutine alone would have done. *)
Lemma finished_trace sched s :
  run' sched initial = Some s ->
  finished s = true ->
  trace s ≡ₚ pending_now client_get resp_json main_menu initial.
Proof.
  intros Hrun Hfin. apply run_spec in Hrun as (Hp & _ & _).
  unfold finished in Hfin. unfold pending_now at 1 in Hp.
  destruct (phase s); try discriminate.
  now rewrite app_nil_r in Hp.
Qed.

(** Any run can be carried on to a finished one. *)
Lemma run_extends sched s :
  run' sched initial = Some s ->
  exists more s', run' (sched ++ more) initial = Some s' /\ finished s' = true.
Proof.
  intros Hrun.
  destruct (run_completes client_get resp_json main_menu s (run_slots _ _ Hrun))
    as (more & s' & Hmore & Hfin).
  exists more, s'. split; [|exact Hfin].
  rewrite run_app, Hrun. exact Hmore.
Qed.

End Finished.

Lemma finished_records_forest {Response} (client_get : string -> Exn + Response)
    resp_json forest sched s :
  run client_get resp_json (inr forest) sched initial = Some s ->
  finished s = true ->
  records (trace s) ≡ₚ records (walk_all client_get resp_json forest).
Proof.
  intros Hrun Hfin.
  rewrite (records_perm _ _ (finished_trace _ _ _ _ _ Hrun Hfin)).
  cbn. now rewrite records_app, app_nil_r.
Qed.

Lemma flat_map_cons_perm {A B} (f : A -> B) (g : A -> list B) (l : list A) :
  flat_map (fun x => f x :: g x) l ≡ₚ map f l ++ flat_map g l.
Proof.
  induction l as [|x l IH]; cbn; [reflexivity|].
  apply Permutation_skip. rewrite IH, !app_assoc.
  apply Permutation_app_tail, Permutation_app_comm.
Qed.

Section Diagnostics.

Context {Response : Type}.
Variable client_get : string -> Exn + Response.
Variable resp_json : Response -> Exn + PyVal.

(** A lookup leaf whose fetch raises leaves its line among the
    diagnostics of the subtree. *)
Lemma recurse_diagnostics cat : forall ancestors depth parent_id sheet o e,
  In o (occurrences_under ancestors cat) ->
  is_lookup_leaf (snd o) = true ->
  raised (fetch_items_body client_get resp_json (snd o) sheet) = Some e ->
  In ("_fetch_items", e)
     (diagnostics (_recurse client_get resp_json cat depth parent_id sheet)).
Proof.
  induction cat as [cat IH] using Category_ind.
  intros ancestors depth parent_id sheet o e.
  rewrite occurrences_under_unfold, recurse_unfold. cbn [diagnostics].
  intros [<-|Hin] Hleaf Hraised.
  - cbn [snd] in *. unfold is_lookup_leaf in Hleaf.
    apply andb_prop in Hleaf as [Hch ->]. apply negb_true_iff in Hch as ->.
    unfold _fetch_items. rewrite diagnostics_safe_api_call, Hraised.
    now left.
  - apply in_flat_map in Hin as (sub & Hsub & Hin).
    assert (truthy_childs cat = true) as ->
      by (unfold truthy_childs; destruct (children cat); [destruct Hsub | reflexivity]).
    rewrite Forall_forall in IH.
    specialize (IH sub (proj2 (list_elem_of_In _ _) Hsub) _ (depth + 1)
                   (Some (cat_id cat)) sheet o e Hin Hleaf Hraised).
    clear - IH Hsub. induction (children cat) as [|c l IHl]; [destruct Hsub|].
    cbn [flat_map]. rewrite diagnostics_app. apply in_or_app.
    destruct Hsub as [->|Hsub]; [left; exact IH | right; auto].
Qed.

Lemma walk_all_diagnostics forest o e :
  In o (occurrences forest) ->
  is_lookup_leaf (snd o) = true ->
  raised (fetch_items_body client_get resp_json (snd o) (cat_name (top_level o))) = Some e ->
  In ("_fetch_items", e) (diagnostics (walk_all client_get resp_json forest)).
Proof.
  unfold occurrences, walk_all.
  intros (root & Hroot & Hin)%in_flat_map Hleaf Hraised.
  rewrite (occurrences_under_top root [] o Hin) in Hraised. cbn [hd] in Hraised.
  pose proof (recurse_diagnostics root [] 1 None (cat_name root) o e Hin Hleaf Hraised) as Hd.
  clear - Hd Hroot. induction forest as [|c l IHl]; [destruct Hroot|].
  cbn [flat_map]. rewrite diagnostics_app. apply in_or_app.
  destruct Hroot as [->|Hroot]; [left; exact Hd | right; auto].
Qed.

End Diagnostics.

(** * The claims *)





(** The two schedules of the scenario do write in different orders. *)
Example schedules_differ_in_order :
  records (trace Scenario.roots_first_end) <> records (trace Scenario.subtree_first_end).
Proof. discriminate. Qed.

(** C3. In every state a run reaches, in every forest, the requests in
    flight and the free slots add up to 30, so at most 30 are in flight.
    A coroutine that finds no free slot waits and stays out of flight,
    and the step that ends a request gives its slot back whatever the
    request brought. *)
Theorem at_most_thirty_in_flight {Response} (client_get : string -> Exn + Response)
    (resp_json : Response -> Exn + PyVal) (main_menu : Exn + list Category)
    (sched : list (list nat)) (s : State) :
  run client_get resp_json main_menu sched initial = Some s ->
  (in_flight_now s <= 30)%nat /\
  (in_flight_now s + semaphore s = 30)%nat /\
  (forall cat depth parent_id sheet,
      in_flight (_recurse_start cat depth parent_id sheet 0).1.1 = 0%nat) /\
  (forall cat sheet,
      step_task client_get resp_json [] (Acquire cat sheet) 0 = None) /\
  (forall cat sheet sem,
      step_task client_get resp_json [] (InFlight cat sheet) sem
      = Some (Done, S sem, _fetch_items client_get resp_json cat sheet)).
Proof.
  intros Hrun. pose proof (run_slots _ _ _ _ _ Hrun) as Hslots.
  unfold SEMAPHORE_SLOTS in Hslots.
  split; [lia|]. split; [exact Hslots|].
  split; [|split; reflexivity].
  intros cat depth parent_id sheet. unfold _recurse_start.
  destruct (truthy_childs cat); cbn.
  - apply (in_flight_ready _ _ (fun _ => sheet)).
  - now destruct (has_lookup cat).
Qed.

Lemma at_most_thirty_in_flight_witness :
  run (Scenario.answers Scenario.one_facet) Scenario.decode (inr Scenario.crowd)
      Scenario.start_all initial = Some Scenario.crowd_started /\
  (in_flight_now Scenario.crowd_started <= 30)%nat.
Proof.
  split; [reflexivity|].
  exact (proj1 (at_most_thirty_in_flight
                  (Scenario.answers Scenario.one_facet) Scenario.decode
                  (inr Scenario.crowd) Scenario.start_all Scenario.crowd_started
                  eq_refl)).
Defined.

(** With 31 leaves started, 30 requests are in flight and the last leaf
    waits for a slot. *)
Example thirty_first_waits :
  in_flight_now Scenario.crowd_started = 30%nat /\
  semaphore Scenario.crowd_started = 0%nat /\
  match phase Scenario.crowd_started with
  | Processing (Gather subs) => last subs = Some (Acquire Scenario.B "B")
  | _ => False
  end.
Proof. repeat split. Qed.






Lemma null_items_absent : GroupDataAbsent Scenario.null_items.
Proof.
  eapply items_not_a_list; [reflexivity | reflexivity |].
  repeat constructor; eexists; (split; [reflexivity | cbn; congruence]).
Defined.


(** C7. When [_fetch_main_menu] raises, a run can still be carried to its
    end, and the finished run has printed the diagnostic, written no
    record, saved the workbook and closed the client. *)
Theorem menu_failure_still_saves {Response} (client_get : string -> Exn + Response)
    (resp_json : Response -> Exn + PyVal) (e : Exn)
    (sched : list (list nat)) (s : State) :
  run client_get resp_json (inl e) sched initial = Some s ->
  (exists more s',
      run client_get resp_json (inl e) (sched ++ more) initial = Some s' /\
      finished s' = true) /\
  (finished s = true ->
   trace s = [EError "_fetch_main_menu" e; ESave; EClose; EBenchmark "scrape"] /\
   records (trace s) = [] /\
   excel_after (trace s) = mkExcel [] ["wb_cat.xlsx"]).
Proof.
  intros Hrun. split; [now apply run_extends with (s := s)|].
  intros Hfin.
  assert (trace s = [EError "_fetch_main_menu" e; ESave; EClose; EBenchmark "scrape"])
    as ->; [|repeat split].
  destruct sched as [|p [|q rest]]; cbn in Hrun.
  - injection Hrun as <-. discriminate.
  - now injection Hrun as <-.
  - discriminate.
Qed.

Lemma menu_failure_still_saves_witness :
  run (Scenario.answers Scenario.one_facet) Scenario.decode
      (inl (TransportError "timed out")) [[]] initial = Some Scenario.no_menu_end /\
  (finished Scenario.no_menu_end = true ->
   trace Scenario.no_menu_end
   = [EError "_fetch_main_menu" (TransportError "timed out");
      ESave; EClose; EBenchmark "scrape"] /\
   records (trace Scenario.no_menu_end) = [] /\
   excel_after (trace Scenario.no_menu_end) = mkExcel [] ["wb_cat.xlsx"]).
Proof.
  split; [reflexivity|].
  exact (proj2 (menu_failure_still_saves
                  (Scenario.answers Scenario.one_facet) Scenario.decode
                  (TransportError "timed out") [[]] Scenario.no_menu_end eq_refl)).
Defined.

(** [cat.shard and cat.query] holds exactly when both are strings that
    are not empty. *)
Lemma has_lookup_nonempty cat :
  has_lookup cat = true <->
  exists shard query,
    cat_shard cat = Some shard /\ cat_query cat = Some query /\
    shard <> "" /\ query <> "".
Proof.
  unfold has_lookup. split.
  - intros [Hs Hq]%andb_prop.
    destruct (cat_shard cat) as [[|a sh]|], (cat_query cat) as [[|b q]|];
      try discriminate.
    eexists _, _. repeat split; discriminate.
  - intros (sh & q & -> & -> & Hs & Hq).
    destruct sh, q; try contradiction; reflexivity.
Qed.

(** C6, as the claim has it, fails: a leaf whose shard is present but
    empty has both parameters present, and no fetch is made for it. *)
Lemma present_empty_shard_no_fetch :
  children Scenario.empty_shard = [] /\
  ~ (fetching (_recurse_start Scenario.empty_shard 1 None "C" 30).1.1 = true <->
     is_Some (cat_shard Scenario.empty_shard) /\
     is_Some (cat_query Scenario.empty_shard)).
Proof.
  split; [reflexivity|]. intros [_ H].
  assert (false = true) by (apply H; split; eexists; reflexivity).
  discriminate.
Qed.

(** C6, amended. [_recurse] writes the node's own record and then does one
    of three things. With children: it gathers one [_recurse] per child,
    at depth + 1, with the node's id as parent and the same sheet, and
    makes no fetch. Without children: it makes one fetch exactly when
    shard and query are both present and not empty, and otherwise it is
    done. *)
Theorem dispatch_by_truthiness (cat : Category) (depth : Z) (parent_id : option Z)
    (sheet : string) (sem : nat) (t' : Task) (sem' : nat) (evs : list Event) :
  _recurse_start cat depth parent_id sheet sem = (t', sem', evs) ->
  evs = [EWrite (own_record cat depth parent_id sheet)] /\
  (children cat <> [] ->
   t' = Gather (map (fun sub => Ready sub (depth + 1) (Some (cat_id cat)) sheet)
                    (children cat)) /\
   sem' = sem /\ fetching t' = false) /\
  (children cat = [] ->
   (fetching t' = true <->
    exists shard query,
      cat_shard cat = Some shard /\ cat_query cat = Some query /\
      shard <> "" /\ query <> "") /\
   (fetching t' = true -> t' = InFlight cat sheet \/ t' = Acquire cat sheet) /\
   (fetching t' = false -> t' = Done /\ sem' = sem)).
Proof.
  unfold _recurse_start, truthy_childs. rewrite <- has_lookup_nonempty.
  destruct (children cat) as [|sub subs] eqn:Hch.
  - destruct (has_lookup cat).
    + destruct sem; intros [= <- <- <-]; cbn; intuition congruence.
    + intros [= <- <- <-]; cbn; intuition congruence.
  - intros [= <- <- <-]. cbn. intuition congruence.
Qed.

Lemma dispatch_by_truthiness_witness :
  _recurse_start Scenario.B 1 None "B" 30
  = (InFlight Scenario.B "B", 29%nat,
     [EWrite (mkRecord "B" (PInt 3) (PStr "B") 1 None)]) /\
  (children Scenario.B = [] ->
   (fetching (InFlight Scenario.B "B") = true <->
    exists shard query,
      cat_shard Scenario.B = Some shard /\ cat_query Scenario.B = Some query /\
      shard <> "" /\ query <> "") /\
   (fetching (InFlight Scenario.B "B") = true ->
    InFlight Scenario.B "B" = InFlight Scenario.B "B" \/
    InFlight Scenario.B "B" = Acquire Scenario.B "B") /\
   (fetching (InFlight Scenario.B "B") = false ->
    InFlight Scenario.B "B" = Done /\ 29%nat = 30%nat)).
Proof.
  split; [reflexivity|].
  exact (proj2 (proj2 (dispatch_by_truthiness Scenario.B 1 None "B" 30
                         (InFlight Scenario.B "B") 29 _ eq_refl))).
Defined.

(** C10. A node without children is fetched for only when shard and query
    are both strings that are not empty; when either is the empty string
    [_recurse] writes the node's own record and is done, with no fetch. *)
Theorem empty_lookup_string_no_fetch {Response} (client_get : string -> Exn + Response)
    (resp_json : Response -> Exn + PyVal) (cat : Category) (depth : Z)
    (parent_id : option Z) (sheet : string) (sem : nat) :
  truthy_childs cat = false ->
  (fetching (_recurse_start cat depth parent_id sheet sem).1.1 = true ->
   exists shard query,
     cat_shard cat = Some shard /\ cat_query cat = Some query /\
     shard <> "" /\ query <> "") /\
  (cat_shard cat = Some "" \/ cat_query cat = Some "" ->
   _recurse_start cat depth parent_id sheet sem
   = (Done, sem, [EWrite (own_record cat depth parent_id sheet)]) /\
   _recurse client_get resp_json cat depth parent_id sheet
   = [EWrite (own_record cat depth parent_id sheet)]).
Proof.
  intros Hch. rewrite recurse_unfold. unfold _recurse_start. rewrite Hch.
  rewrite <- has_lookup_nonempty. split.
  - destruct (has_lookup cat); [reflexivity|]. cbn. discriminate.
  - intros Hempty.
    assert (has_lookup cat = false) as ->; [|split; reflexivity].
    unfold has_lookup. destruct Hempty as [-> | ->]; cbn; [reflexivity|].
    apply andb_false_r.
Qed.

Lemma empty_lookup_string_no_fetch_witness :
  truthy_childs Scenario.empty_shard = false /\
  (cat_shard Scenario.empty_shard = Some "" \/ cat_query Scenario.empty_shard = Some "" ->
   _recurse_start Scenario.empty_shard 1 None "C" 30
   = (Done, 30%nat, [EWrite (own_record Scenario.empty_shard 1 None "C")]) /\
   _recurse (Scenario.answers Scenario.one_facet) Scenario.decode
        Scenario.empty_shard 1 None "C"
   = [EWrite (own_record Scenario.empty_shard 1 None "C")]).
Proof.
  split; [reflexivity|].
  exact (proj2 (empty_lookup_string_no_fetch
                  (Scenario.answers Scenario.one_facet) Scenario.decode
                  Scenario.empty_shard 1 None "C" 30 eq_refl)).
Defined.




(** * Further properties *)

(** ** ExcelSaver *)

Lemma has_sheet_rows nm ss :
  has_sheet nm ss = match sheet_rows nm ss with
                    | Some _ => true
                    | None => false
                    end.
Proof.
  induction ss as [|[k rows] ss IH]; cbn; [reflexivity|].
  destruct (String.eqb nm k); [reflexivity | exact IH].
Qed.

Lemma sheet_rows_snoc_new nm k rows ss :
  sheet_rows nm (ss ++ [(k, rows)]) =
  match sheet_rows nm ss with
  | Some found => Some found
  | None => if String.eqb nm k then Some rows else None
  end.
Proof.
  induction ss as [|[k' rows'] ss IH]; cbn; [reflexivity|].
  destruct (String.eqb nm k'); [reflexivity | exact IH].
Qed.

Lemma sheet_rows_append_row nm k row ss :
  sheet_rows nm (append_row k row ss) =
  if String.eqb nm k then (fun rows => rows ++ [row]) <$> sheet_rows nm ss
  else sheet_rows nm ss.
Proof.
  induction ss as [|[k' rows'] ss IH]; cbn.
  - now destruct (String.eqb nm k).
  - destruct (String.eqb_spec k k') as [->|Hk]; cbn.
    + destruct (String.eqb nm k'); reflexivity.
    + destruct (String.eqb_spec nm k') as [->|Hn].
      * apply String.eqb_neq in Hk. rewrite String.eqb_sym in Hk. now rewrite Hk.
      * exact IH.
Qed.

(** One [write], seen from any sheet name. *)
Lemma sheet_rows_write nm x r :
  sheet_rows nm (sheets (write x r)) =
  if String.eqb nm (r_sheet r) then
    Some (default [HEADER] (sheet_rows nm (sheets x)) ++ [row_of r])
  else sheet_rows nm (sheets x).
Proof.
  unfold write, get_sheet. cbn [sheets]. fold (row_of r).
  rewrite sheet_rows_append_row.
  destruct (String.eqb_spec nm (r_sheet r)) as [->|Hn].
  - rewrite has_sheet_rows.
    destruct (sheet_rows (r_sheet r) (sheets x)) as [rows|] eqn:Hrows.
    + now rewrite Hrows.
    + rewrite sheet_rows_snoc_new, Hrows, String.eqb_refl. reflexivity.
  - rewrite has_sheet_rows.
    destruct (sheet_rows (r_sheet r) (sheets x)); [reflexivity|].
    rewrite sheet_rows_snoc_new.
    destruct (sheet_rows nm (sheets x)); [reflexivity|].
    apply String.eqb_neq in Hn. now rewrite Hn.
Qed.

Lemma sheet_rows_events nm evs : forall x,
  sheet_rows nm (sheets (fold_left excel_event evs x)) =
  match sheet_rows nm (sheets x), on_sheet nm (records evs) with
  | None, [] => None
  | found, rs => Some (default [HEADER] found ++ map row_of rs)
  end.
Proof.
  induction evs as [|ev evs IH]; intros x; cbn [fold_left records].
  - cbn. destruct (sheet_rows nm (sheets x)); [now rewrite app_nil_r | reflexivity].
  - destruct ev as [r|f e| | |f]; cbn [excel_event records]; rewrite IH;
      try reflexivity.
    rewrite sheet_rows_write. unfold on_sheet. cbn [List.filter].
    rewrite (String.eqb_sym (r_sheet r) nm).
    destruct (String.eqb nm (r_sheet r)).
    + cbn [default from_option id map]. rewrite <- app_assoc. cbn [app].
      now destruct (sheet_rows nm (sheets x)).
    + reflexivity.
Qed.

Lemma worksheet_is_header_then_rows_aux nm evs :
  sheet_rows nm (sheets (excel_after evs)) <> None <-> on_sheet nm (records evs) <> [].
Proof.
  unfold excel_after. rewrite sheet_rows_events. cbn.
  destruct (on_sheet nm (records evs)); split; congruence.
Qed.


Lemma sheet_rows_keys nm ss :
  In nm (map fst ss) <-> sheet_rows nm ss <> None.
Proof.
  induction ss as [|[k rows] ss IH]; cbn; [tauto|].
  destruct (String.eqb_spec nm k) as [->|Hn].
  - split; [discriminate | auto].
  - rewrite <- IH. split; [intros [Hk|H]; [congruence | exact H] | auto].
Qed.

Lemma append_row_keys k row ss :
  map fst (append_row k row ss) = map fst ss.
Proof.
  induction ss as [|[k' rows'] ss IH]; cbn; [reflexivity|].
  destruct (String.eqb k k'); cbn; [reflexivity | now rewrite IH].
Qed.

Lemma write_keys_nodup x r :
  List.NoDup (map fst (sheets x)) -> List.NoDup (map fst (sheets (write x r))).
Proof.
  intros Hx. unfold write, get_sheet. cbn [sheets]. rewrite append_row_keys.
  rewrite has_sheet_rows.
  destruct (sheet_rows (r_sheet r) (sheets x)) eqn:Hrows; [exact Hx|].
  rewrite map_app. cbn.
  apply NoDup_ListNoDup, NoDup_app. repeat split.
  - now apply NoDup_ListNoDup.
  - intros k Hk [<-|[]]%list_elem_of_In.
    apply list_elem_of_In, sheet_rows_keys in Hk. congruence.
  - apply NoDup_singleton.
Qed.

Lemma events_keys_nodup evs : forall x,
  List.NoDup (map fst (sheets x)) ->
  List.NoDup (map fst (sheets (fold_left excel_event evs x))).
Proof.
  induction evs as [|ev evs IH]; intros x Hx; cbn [fold_left]; [exact Hx|].
  apply IH. destruct ev; cbn [excel_event save sheets]; auto using write_keys_nodup.
Qed.

Lemma on_sheet_nonempty nm rs :
  on_sheet nm rs <> [] <-> exists r, In r rs /\ r_sheet r = nm.
Proof.
  unfold on_sheet. split.
  - destruct (List.filter _ rs) as [|r l] eqn:Hf; [congruence|]. intros _.
    assert (In r (List.filter (fun r => String.eqb (r_sheet r) nm) rs)) as Hin
      by (rewrite Hf; now left).
    apply filter_In in Hin as [Hin Heq]. apply String.eqb_eq in Heq. eauto.
  - intros (r & Hin & Hnm) Hnil.
    assert (In r (List.filter (fun r => String.eqb (r_sheet r) nm) rs)) as Hf
      by (apply filter_In; split; [exact Hin | now apply String.eqb_eq]).
    now rewrite Hnil in Hf.
Qed.


(** ** [scrape] *)

Lemma outputs_safe_api_call {A} func (m : Emit A) :
  forallb is_output (safe_api_call func m) = true.
Proof.
  unfold safe_api_call. rewrite forallb_app. apply andb_true_intro. split.
  - induction (written m); cbn; auto.
  - now destruct (raised m).
Qed.

Lemma outputs_step_task {Response} (client_get : string -> Exn + Response)
    resp_json p : forall t sem t' sem' evs,
  step_task client_get resp_json p t sem = Some (t', sem', evs) ->
  forallb is_output evs = true.
Proof.
  induction p as [|i p IH]; intros t sem t' sem' evs; cbn.
  - destruct t as [cat d pid sh|subs|cat sh|cat sh|]; try discriminate.
    + unfold _recurse_start.
      destruct (truthy_childs cat); [now intros [= <- <- <-]|].
      destruct (has_lookup cat); [|now intros [= <- <- <-]].
      destruct sem; now intros [= <- <- <-].
    + destruct (forallb is_done subs); [|discriminate]. now intros [= <- <- <-].
    + destruct sem; [discriminate|]. now intros [= <- <- <-].
    + intros [= <- <- <-]. apply outputs_safe_api_call.
  - destruct t as [cat d pid sh|subs|cat sh|cat sh|]; try discriminate.
    destruct (subs !! i) as [sub|]; [|discriminate].
    destruct (step_task client_get resp_json p sub sem)
      as [[[sub' sem1] evs1]|] eqn:Hs; [|discriminate].
    intros [= <- <- <-]. eapply IH, Hs.
Qed.

(** Until [scrape] is over the trace holds records and diagnostics only;
    once it is over, these are followed by the three closing events. *)
Lemma outputs_then_finish {Response} (client_get : string -> Exn + Response)
    resp_json main_menu sched : forall s s',
  run client_get resp_json main_menu sched s = Some s' ->
  finished s = false -> forallb is_output (trace s) = true ->
  if finished s' then
    exists body, trace s' = body ++ finish /\ forallb is_output body = true
  else forallb is_output (trace s') = true.
Proof.
  induction sched as [|p sched IH]; intros s s'; cbn.
  - intros [= <-] -> Hs. exact Hs.
  - destruct (step client_get resp_json main_menu p s) as [s1|] eqn:H1;
      [|discriminate].
    intros Hrun Hfin Hout.
    assert (if finished s1 then
              exists body, trace s1 = body ++ finish /\ forallb is_output body = true
            else forallb is_output (trace s1) = true) as H1'.
    { destruct s as [ph sem tr]. unfold step, finished in *.
      cbn [phase semaphore trace] in *.
      destruct ph as [|t|]; [| |discriminate].
      - injection H1 as <-. unfold after_menu, _fetch_main_menu.
        destruct main_menu as [e|[|cat categories]];
          cbn [phase trace lift safe_api_call written raised fst snd map app].
        + exists (tr ++ [EError "_fetch_main_menu" e]).
          rewrite <- app_assoc. split; [reflexivity|].
          rewrite forallb_app, Hout. reflexivity.
        + exists tr. auto.
        + now rewrite app_nil_r.
      - destruct t as [cat d pid sh|subs|cat sh|cat sh|];
          try (destruct (step_task client_get resp_json p _ sem)
                 as [[[t' sem'] evs]|] eqn:Hs; [|discriminate];
               injection H1 as <-; cbn [phase trace];
               rewrite forallb_app, Hout;
               exact (outputs_step_task _ _ _ _ _ _ _ _ Hs)).
        injection H1 as <-. cbn [phase trace]. exists tr. auto. }
    destruct (finished s1) eqn:Hf1.
    + destruct sched as [|q sched]; cbn in Hrun.
      * injection Hrun as <-. now rewrite Hf1.
      * unfold step, finished in *. destruct (phase s1); discriminate.
    + now apply (IH s1).
Qed.

Lemma saved_outputs body : forall x,
  forallb is_output body = true ->
  saved (fold_left excel_event body x) = saved x.
Proof.
  induction body as [|ev body IH]; intros x; cbn [fold_left forallb]; [reflexivity|].
  intros [Hev Hbody]%andb_prop. rewrite (IH _ Hbody).
  destruct ev; try discriminate; reflexivity.
Qed.



(** X4. When the menu comes back as an empty list, [scrape] writes
    nothing and prints no diagnostic: it saves the workbook, closes the
    client and prints the benchmark line. *)
Theorem empty_menu_only_saves {Response} (client_get : string -> Exn + Response)
    (resp_json : Response -> Exn + PyVal) (sched : list (list nat)) (s : State) :
  run client_get resp_json (inr []) sched initial = Some s ->
  finished s = true ->
  trace s = [ESave; EClose; EBenchmark "scrape"] /\
  excel_after (trace s) = mkExcel [] ["wb_cat.xlsx"].
Proof.
  intros Hrun Hfin.
  assert (trace s = [ESave; EClose; EBenchmark "scrape"]) as ->; [|split; reflexivity].
  destruct sched as [|p [|q rest]]; cbn in Hrun.
  - injection Hrun as <-. discriminate.
  - now injection Hrun as <-.
  - discriminate.
Qed.

Lemma empty_menu_only_saves_witness :
  run (Scenario.answers Scenario.one_facet) Scenario.decode (inr []) [[]] initial
  = Some (mkState Finished 30 [ESave; EClose; EBenchmark "scrape"]) /\
  finished (mkState Finished 30 [ESave; EClose; EBenchmark "scrape"]) = true /\
  trace (mkState Finished 30 [ESave; EClose; EBenchmark "scrape"])
  = [ESave; EClose; EBenchmark "scrape"].
Proof.
  split; [reflexivity|]. split; [reflexivity|].
  exact (proj1 (empty_menu_only_saves
                  (Scenario.answers Scenario.one_facet) Scenario.decode [[]]
                  (mkState Finished 30 [ESave; EClose; EBenchmark "scrape"])
                  eq_refl eq_refl)).
Defined.

(** ** The event loop *)

Lemma cat_weight_occurrences cat : forall ancestors,
  cat_weight cat = (4 * length (occurrences_under ancestors cat))%nat.
Proof.
  induction cat as [cat IH] using Category_ind. intros ancestors.
  rewrite cat_weight_unfold, occurrences_under_unfold. cbn [length].
  assert (list_sum (map cat_weight (children cat))
          = (4 * length (flat_map (occurrences_under (ancestors ++ [cat]))
                                  (children cat)))%nat) as ->; [|lia].
  induction IH as [|sub subs Hsub _ IHsubs]; [reflexivity|].
  cbn [map flat_map]. rewrite length_app.
  change (list_sum (cat_weight sub :: map cat_weight subs))
    with (cat_weight sub + list_sum (map cat_weight subs))%nat.
  rewrite IHsubs, (Hsub (ancestors ++ [cat])). lia.
Qed.

Lemma forest_weight_occurrences forest :
  list_sum (map cat_weight forest) = (4 * length (occurrences forest))%nat.
Proof.
  unfold occurrences. induction forest as [|root forest IH]; [reflexivity|].
  cbn [map flat_map]. rewrite length_app.
  change (list_sum (cat_weight root :: map cat_weight forest))
    with (cat_weight root + list_sum (map cat_weight forest))%nat.
  rewrite IH, (cat_weight_occurrences root []). lia.
Qed.

(** X5. No schedule makes the walk run on: a run over a forest takes at
    most four steps for each node and three more. *)
Theorem run_length_bounded {Response} (client_get : string -> Exn + Response)
    (resp_json : Response -> Exn + PyVal) (forest : list Category)
    (sched : list (list nat)) (s : State) :
  run client_get resp_json (inr forest) sched initial = Some s ->
  (length sched <= 3 + 4 * length (occurrences forest))%nat.
Proof.
  intros Hrun. apply run_spec in Hrun as (_ & _ & Hlen).
  unfold weight in Hlen at 2. cbn [phase initial] in Hlen.
  rewrite forest_weight_occurrences in Hlen. lia.
Qed.

Lemma run_length_bounded_witness :
  run (Scenario.answers Scenario.one_facet) Scenario.decode (inr Scenario.forest)
      Scenario.roots_first initial = Some Scenario.roots_first_end /\
  (length Scenario.roots_first <= 3 + 4 * length (occurrences Scenario.forest))%nat.
Proof.
  split; [reflexivity|].
  exact (run_length_bounded
           (Scenario.answers Scenario.one_facet) Scenario.decode
           Scenario.forest Scenario.roots_first Scenario.roots_first_end eq_refl).
Defined.

(** X6. The walk cannot get stuck: in every state a run reaches before
    [scrape] is over, some coroutine can take a step. In particular the
    coroutines waiting for a slot never wait on one another alone. *)
Theorem never_stuck {Response} (client_get : string -> Exn + Response)
    (resp_json : Response -> Exn + PyVal) (main_menu : Exn + list Category)
    (sched : list (list nat)) (s : State) :
  run client_get resp_json main_menu sched initial = Some s ->
  finished s = false ->
  exists p s', step client_get resp_json main_menu p s = Some s'.
Proof.
  intros Hrun Hfin. apply step_progress; [|exact Hfin].
  exact (run_slots _ _ _ _ _ Hrun).
Qed.

Lemma never_stuck_witness :
  run (Scenario.answers Scenario.one_facet) Scenario.decode (inr Scenario.crowd)
      Scenario.start_all initial = Some Scenario.crowd_started /\
  finished Scenario.crowd_started = false /\
  exists p s',
    step (Scenario.answers Scenario.one_facet) Scenario.decode (inr Scenario.crowd)
         p Scenario.crowd_started = Some s'.
Proof.
  split; [reflexivity|]. split; [reflexivity|].
  exact (never_stuck
           (Scenario.answers Scenario.one_facet) Scenario.decode
           (inr Scenario.crowd) Scenario.start_all Scenario.crowd_started
           eq_refl eq_refl).
Defined.


(** ** [safe_api_call] over the walk *)

Lemma diagnostics_flat_map {A} (f : A -> list Event) (l : list A) :
  diagnostics (flat_map f l) = flat_map (fun x => diagnostics (f x)) l.
Proof.
  induction l as [|x l IH]; cbn; [reflexivity|].
  now rewrite diagnostics_app, IH.
Qed.

Lemma flat_map_ext_Forall {A B} (f g : A -> list B) (l : list A) :
  Forall (fun x => f x = g x) l -> flat_map f l = flat_map g l.
Proof.
  induction 1 as [|x l Hx _ IH]; cbn; [reflexivity | now rewrite Hx, IH].
Qed.

Lemma Permutation_eq_refl_flat_map {A B} (f g : A -> list B) (l : list A) :
  (forall x, f x = g x) -> flat_map f l ≡ₚ flat_map g l.
Proof.
  intros Hfg. induction l as [|x l IH]; cbn; [reflexivity | now rewrite Hfg, IH].
Qed.

Lemma recurse_diagnostics_occurrences {Response}
    (client_get : string -> Exn + Response) resp_json cat :
  forall ancestors depth parent_id,
  diagnostics (_recurse client_get resp_json cat depth parent_id
                        (cat_name (hd cat ancestors)))
  = flat_map (lookup_diagnostics client_get resp_json)
             (occurrences_under ancestors cat).
Proof.
  induction cat as [cat IH] using Category_ind. intros ancestors depth parent_id.
  rewrite recurse_unfold, occurrences_under_unfold, flat_map_cons_eq.
  cbn [diagnostics].
  unfold lookup_diagnostics at 1, is_lookup_leaf. cbn [snd top_level fst].
  destruct (truthy_childs cat) eqn:Hch; cbn [negb andb].
  - rewrite app_nil_l, diagnostics_flat_map, flat_map_flat_map.
    apply flat_map_ext_Forall.
    eapply Forall_impl; [exact IH|]. intros sub Hsub. cbn beta.
    rewrite <- (Hsub (ancestors ++ [cat]) (depth + 1) (Some (cat_id cat))).
    now rewrite hd_snoc.
  - assert (children cat = []) as ->
      by (unfold truthy_childs in Hch; destruct (children cat); congruence).
    cbn [flat_map]. rewrite app_nil_r.
    destruct (has_lookup cat); [|reflexivity].
    unfold _fetch_items. rewrite diagnostics_safe_api_call.
    now destruct (raised _).
Qed.



(** ** The loops of [_fetch_items] *)

Lemma write_items_cons cat sheet item items :
  write_items cat sheet (item :: items) =
  bind (let* id := lift (py_get item "id" (PInt 0)) in
        let* nm := lift (py_get item "name" (PStr "Unnamed")) in
        emit (mkRecord sheet id nm 99 (Some (cat_id cat))))
       (fun _ => write_items cat sheet items).
Proof. reflexivity. Qed.

Lemma write_items_dict cat sheet kv items :
  write_items cat sheet (PDict kv :: items) =
  (facet_record cat sheet (PDict kv) :: written (write_items cat sheet items),
   snd (write_items cat sheet items)).
Proof.
  rewrite write_items_cons. cbn [py_get]. rewrite !bind_lift.
  cbn. now destruct (write_items cat sheet items).
Qed.



Lemma write_groups_cons cat sheet group groups :
  write_groups cat sheet (group :: groups) =
  bind (let* gname := lift (py_get group "name" PNone) in
        if py_eq_str gname CATEGORY_LABEL then
          let* items := lift (py_get group "items" PNone) in
          match items with
          | PList its => write_items cat sheet its
          | _ => ret tt
          end
        else ret tt)
       (fun _ => write_groups cat sheet groups).
Proof. reflexivity. Qed.



(** ** The response of the filter endpoint *)

Lemma fetch_items_raises {Response} (client_get : string -> Exn + Response)
    resp_json cat sheet e :
  fetch_items_body client_get resp_json cat sheet = ([], inl e) ->
  _fetch_items client_get resp_json cat sheet = [EError "_fetch_items" e].
Proof. intros H. unfold _fetch_items, safe_api_call. now rewrite H. Qed.

(** X10. When the decoded response is not an object, or its [data] is
    there but is not an object ([null], a list, a number), [_fetch_items]
    writes nothing and prints the [AttributeError] that names the type
    of the value it called [.get] on. *)
Theorem non_object_response_is_reported {Response}
    (client_get : string -> Exn + Response) (resp_json : Response -> Exn + PyVal)
    (cat : Category) (sheet : string) (resp : Response) (json bad : PyVal) :
  client_get (FILTER_API (cat_shard cat) (cat_query cat)) = inr resp ->
  resp_json resp = inr json ->
  is_dict bad = false ->
  json = bad \/ (exists top, json = PDict top /\ assoc "data" top = Some bad) ->
  _fetch_items client_get resp_json cat sheet
  = [EError "_fetch_items" (AttributeError (py_type bad) "get")].
Proof.
  intros Hget Hjson Hbad Hwhere. apply fetch_items_raises.
  unfold fetch_items_body. rewrite Hget, bind_lift, Hjson, bind_lift.
  destruct Hwhere as [->|(top & -> & Hdata)].
  - destruct bad; try discriminate; reflexivity.
  - cbn [py_get]. rewrite Hdata. cbn [default from_option id]. rewrite bind_lift.
    destruct bad; try discriminate; reflexivity.
Qed.

Lemma non_object_response_is_reported_witness :
  Scenario.answers Answers.null_data
    (FILTER_API (cat_shard Scenario.B) (cat_query Scenario.B)) = inr Answers.null_data /\
  Scenario.decode Answers.null_data = inr Answers.null_data /\
  is_dict PNone = false /\
  (Answers.null_data = PNone \/
   exists top, Answers.null_data = PDict top /\ assoc "data" top = Some PNone) /\
  _fetch_items (Scenario.answers Answers.null_data) Scenario.decode Scenario.B "B"
  = [EError "_fetch_items" (AttributeError "NoneType" "get")].
Proof.
  split; [reflexivity|]. split; [reflexivity|]. split; [reflexivity|].
  split; [right; eexists; split; reflexivity|].
  exact (non_object_response_is_reported
           (Scenario.answers Answers.null_data) Scenario.decode Scenario.B "B"
           Answers.null_data Answers.null_data PNone eq_refl eq_refl eq_refl
           (or_intror (ex_intro _ _ (conj eq_refl eq_refl)))).
Defined.

(** X11. What stands under [filters] when it is not a list. [null], a
    boolean or a number cannot be iterated: nothing is written and the
    [TypeError] is printed. An empty string and an empty object are
    iterated like an empty list: nothing is written and nothing is
    printed. A string or an object that is not empty yields strings, and
    [.get] on the first one raises. *)
Theorem filters_that_are_no_list {Response}
    (client_get : string -> Exn + Response) (resp_json : Response -> Exn + PyVal)
    (cat : Category) (sheet : string) (resp : Response)
    (top data : list (string * PyVal)) (raw : PyVal) :
  client_get (FILTER_API (cat_shard cat) (cat_query cat)) = inr resp ->
  resp_json resp = inr (PDict top) ->
  assoc "data" top = Some (PDict data) ->
  assoc "filters" data = Some raw ->
  match raw with
  | PNone | PBool _ | PInt _ | PFloat _ =>
      _fetch_items client_get resp_json cat sheet
      = [EError "_fetch_items" (TypeError (py_type raw))]
  | PStr EmptyString | PDict [] | PList [] =>
      _fetch_items client_get resp_json cat sheet = []
  | PStr (String _ _) | PDict (_ :: _) =>
      _fetch_items client_get resp_json cat sheet
      = [EError "_fetch_items" (AttributeError "str" "get")]
  | PList (_ :: _) => True
  end.
Proof.
  intros Hget Hjson Hdata Hfilters.
  assert (fetch_items_body client_get resp_json cat sheet =
          let* groups := lift (py_iter raw) in write_groups cat sheet groups) as Hbody.
  { unfold fetch_items_body. rewrite Hget, bind_lift, Hjson, bind_lift.
    cbn [py_get]. rewrite Hdata. cbn [default from_option id]. rewrite bind_lift.
    cbn [py_get]. rewrite Hfilters. cbn [default from_option id].
    now rewrite bind_lift. }
  unfold _fetch_items. rewrite Hbody.
  destruct raw as [| | | |[|c str]|[|g gs]|[|[k v] kvs]]; try reflexivity; exact I.
Qed.

Lemma filters_that_are_no_list_witness :
  Scenario.answers Answers.empty_string_filters
    (FILTER_API (cat_shard Scenario.B) (cat_query Scenario.B))
  = inr Answers.empty_string_filters /\
  Scenario.decode Answers.empty_string_filters
  = inr (PDict [("data", PDict [("filters", PStr "")])]) /\
  assoc "data" [("data", PDict [("filters", PStr "")])]
  = Some (PDict [("filters", PStr "")]) /\
  assoc "filters" [("filters", PStr "")] = Some (PStr "") /\
  _fetch_items (Scenario.answers Answers.empty_string_filters) Scenario.decode
               Scenario.B "B" = [].
Proof.
  repeat (split; [reflexivity|]).
  exact (filters_that_are_no_list
           (Scenario.answers Answers.empty_string_filters) Scenario.decode
           Scenario.B "B" Answers.empty_string_filters _ _ (PStr "")
           eq_refl eq_refl eq_refl eq_refl).
Defined.

(** ** What a fetch depends on *)

Lemma write_items_retarget cat1 sheet1 cat2 sheet2 items :
  write_items cat2 sheet2 items =
  (map (retarget cat2 sheet2) (written (write_items cat1 sheet1 items)),
   snd (write_items cat1 sheet1 items)).
Proof.
  induction items as [|item items IH]; [reflexivity|].
  rewrite !write_items_cons, IH.
  destruct item as [| | | | | |kv]; try reflexivity.
  cbn [py_get]. rewrite !bind_lift. cbn.
  now destruct (write_items cat1 sheet1 items).
Qed.

Lemma write_groups_retarget cat1 sheet1 cat2 sheet2 groups :
  write_groups cat2 sheet2 groups =
  (map (retarget cat2 sheet2) (written (write_groups cat1 sheet1 groups)),
   snd (write_groups cat1 sheet1 groups)).
Proof.
  induction groups as [|group groups IH]; [reflexivity|].
  rewrite !write_groups_cons, IH.
  destruct group as [| | | | | |kv]; try reflexivity.
  cbn [py_get]. rewrite !bind_lift.
  destruct (py_eq_str (default PNone (assoc "name" kv)) CATEGORY_LABEL).
  - rewrite ?bind_lift.
    destruct (default PNone (assoc "items" kv)) as [| | | | |its|];
      try (cbn; now destruct (write_groups cat1 sheet1 groups)).
    rewrite (write_items_retarget cat1 sheet1 cat2 sheet2 its).
    destruct (write_items cat1 sheet1 its) as [w [e|[]]]; cbn; [reflexivity|].
    destruct (write_groups cat1 sheet1 groups). cbn. now rewrite map_app.
  - cbn. now destruct (write_groups cat1 sheet1 groups).
Qed.

(** X12. What a fetch brings depends on the shard and the query alone:
    two leaves with the same shard and query get the same facets, each
    under its own id and on its own sheet, and fail alike. *)
Theorem same_lookup_same_facets {Response}
    (client_get : string -> Exn + Response) (resp_json : Response -> Exn + PyVal)
    (cat1 cat2 : Category) (sheet1 sheet2 : string) :
  cat_shard cat1 = cat_shard cat2 ->
  cat_query cat1 = cat_query cat2 ->
  written (fetch_items_body client_get resp_json cat2 sheet2)
  = map (retarget cat2 sheet2)
        (written (fetch_items_body client_get resp_json cat1 sheet1)) /\
  raised (fetch_items_body client_get resp_json cat2 sheet2)
  = raised (fetch_items_body client_get resp_json cat1 sheet1).
Proof.
  intros Hshard Hquery. unfold fetch_items_body. rewrite Hshard, Hquery.
  rewrite !bind_lift. destruct (client_get _) as [e|resp]; [split; reflexivity|].
  rewrite !bind_lift. destruct (resp_json resp) as [e|json]; [split; reflexivity|].
  rewrite !bind_lift. destruct (py_get json _ _) as [e|data]; [split; reflexivity|].
  rewrite !bind_lift. destruct (py_get data _ _) as [e|raw]; [split; reflexivity|].
  rewrite !bind_lift. destruct (py_iter raw) as [e|groups]; [split; reflexivity|].
  rewrite (write_groups_retarget cat1 sheet1 cat2 sheet2 groups).
  split; reflexivity.
Qed.

Lemma same_lookup_same_facets_witness :
  cat_shard Scenario.B = cat_shard Answers.B2 /\
  cat_query Scenario.B = cat_query Answers.B2 /\
  written (fetch_items_body (Scenario.answers Scenario.one_facet) Scenario.decode
                            Answers.B2 "A")
  = [mkRecord "A" (PInt 10) (PStr "F1") 99 (Some 4)].
Proof.
  split; [reflexivity|]. split; [reflexivity|].
  exact (proj1 (same_lookup_same_facets
                  (Scenario.answers Scenario.one_facet) Scenario.decode
                  Scenario.B Answers.B2 "B" "A" eq_refl eq_refl)).
Defined.

(** X13. Whatever the endpoint answers, and whether or not the fetch
    fails on the way, every record [_fetch_items] writes has depth 99,
    the leaf's id as parent and the sheet it was called with. *)
Theorem facets_pinned_whatever_the_answer {Response}
    (client_get : string -> Exn + Response) (resp_json : Response -> Exn + PyVal)
    (cat : Category) (sheet : string) :
  Forall (fun r => r_depth r = 99 /\ r_parent r = Some (cat_id cat) /\ r_sheet r = sheet)
         (records (_fetch_items client_get resp_json cat sheet)).
Proof.
  unfold _fetch_items. rewrite records_safe_api_call.
  apply fetch_items_body_facets.
Qed.

(** ** The order of the rows *)

Lemma has_row_app rs more id sheet :
  has_row rs id sheet -> has_row (rs ++ more) id sheet.
Proof.
  intros (r & Hin & Hid & Hsheet). exists r. repeat split; auto.
  apply in_or_app. now left.
Qed.

Lemma announced_app rs more t :
  Announced rs t -> Announced (rs ++ more) t.
Proof.
  induction t as [cat d pid sh|subs IH|cat sh|cat sh|] using Task_ind;
    intros Ht; inversion Ht; subst; constructor; auto using has_row_app.
  rewrite Forall_forall in *. auto.
Qed.

Lemma parents_first_app tr evs :
  parents_first tr ->
  (forall r p, In (EWrite r) evs -> r_parent r = Some p ->
               has_row (records tr) p (r_sheet r)) ->
  parents_first (tr ++ evs).
Proof.
  intros Htr Hevs before r after p Heq Hp.
  apply app_eq_app in Heq as [l [[-> Hl]|[-> ->]]].
  - destruct l as [|x l].
    + cbn in Hl. rewrite app_nil_r in Hevs. apply (Hevs r p); [|exact Hp].
      rewrite <- Hl. now left.
    + injection Hl as <- _. now apply (Htr before r l p).
  - rewrite records_app. apply has_row_app, (Hevs r p); [|exact Hp].
    apply in_or_app. right. now left.
Qed.

Lemma own_row rs cat depth parent_id sheet :
  has_row (rs ++ records [EWrite (own_record cat depth parent_id sheet)])
          (cat_id cat) sheet.
Proof.
  exists (own_record cat depth parent_id sheet). repeat split.
  apply in_or_app. right. now left.
Qed.

Lemma facets_in_fetch {Response} (client_get : string -> Exn + Response)
    resp_json cat sheet r :
  In r (records (_fetch_items client_get resp_json cat sheet)) ->
  r_depth r = 99 /\ r_parent r = Some (cat_id cat) /\ r_sheet r = sheet.
Proof.
  unfold _fetch_items. rewrite records_safe_api_call. intros Hin.
  pose proof (fetch_items_body_facets client_get resp_json cat sheet) as H.
  rewrite Forall_forall in H. now apply H, list_elem_of_In.
Qed.

(** A step writes records whose parents are written already, and leaves
    the coroutines with theirs written too. *)
Lemma step_task_announced {Response} (client_get : string -> Exn + Response)
    resp_json p : forall t sem t' sem' evs rs,
  step_task client_get resp_json p t sem = Some (t', sem', evs) ->
  Announced rs t ->
  (forall r q, In (EWrite r) evs -> r_parent r = Some q -> has_row rs q (r_sheet r)) /\
  Announced (rs ++ records evs) t'.
Proof.
  induction p as [|i p IH]; intros t sem t' sem' evs rs; cbn [step_task].
  - destruct t as [cat d pid sh|subs|cat sh|cat sh|]; try discriminate.
    + intros [= Hstart] Ht. unfold _recurse_start in Hstart.
      assert (forall r q, In (EWrite r) [EWrite (own_record cat d pid sh)] ->
                r_parent r = Some q -> has_row rs q (r_sheet r)) as Hown.
      { intros r q [[= <-]|[]] Hq. cbn in Hq. subst pid. now inversion Ht. }
      destruct (truthy_childs cat).
      * injection Hstart as <- <- <-. split; [exact Hown|].
        constructor. apply Forall_forall. intros t Hin.
        apply list_elem_of_In, in_map_iff in Hin as (sub & <- & _).
        constructor. apply own_row.
      * destruct (has_lookup cat).
        -- destruct sem; injection Hstart as <- <- <-;
             (split; [exact Hown | constructor; apply own_row]).
        -- injection Hstart as <- <- <-. split; [exact Hown | constructor].
    + destruct (forallb is_done subs); [|discriminate].
      intros [= <- <- <-] _. split; [intros r q [] | constructor].
    + destruct sem; [discriminate|]. intros [= <- <- <-] Ht.
      split; [intros r q []|]. inversion Ht; subst.
      constructor. now apply has_row_app.
    + intros [= <- <- <-] Ht. split; [|constructor].
      intros r q Hin Hq. inversion Ht as [| | | |c s Hrow|]; subst.
      assert (In r (records (_fetch_items client_get resp_json cat sh))) as Hr.
      { clear - Hin. induction (_fetch_items client_get resp_json cat sh)
          as [|ev evs IHevs]; [destruct Hin|].
        destruct Hin as [->|Hin]; [now left|].
        destruct ev; cbn; auto. }
      pose proof (facets_in_fetch client_get resp_json cat sh r Hr) as (_ & Hpar & Hsh).
      rewrite Hpar in Hq. injection Hq as <-. now rewrite Hsh.
  - destruct t as [cat d pid sh|subs|cat sh|cat sh|]; try discriminate.
    destruct (subs !! i) as [sub|] eqn:Hi; [|discriminate].
    destruct (step_task client_get resp_json p sub sem)
      as [[[sub' sem1] evs1]|] eqn:Hs; [|discriminate].
    intros [= <- <- <-] Ht. inversion Ht as [| |? Hsubs| | |]; subst.
    pose proof (Forall_lookup_1 _ _ _ _ Hsubs Hi) as Hsub.
    destruct (IH _ _ _ _ _ rs Hs Hsub) as [Hevs Hsub'].
    split; [exact Hevs|]. constructor. apply Forall_insert; [|exact Hsub'].
    eapply Forall_impl; [exact Hsubs|]. intros t. apply announced_app.
Qed.

Lemma run_parents_first {Response} (client_get : string -> Exn + Response)
    resp_json main_menu sched : forall s s',
  run client_get resp_json main_menu sched s = Some s' ->
  parents_first (trace s) ->
  match phase s with
  | Processing t => Announced (records (trace s)) t
  | _ => True
  end ->
  parents_first (trace s').
Proof.
  induction sched as [|p sched IH]; intros s s'; cbn [run].
  - now intros [= <-].
  - destruct (step client_get resp_json main_menu p s) as [s1|] eqn:H1;
      [|discriminate].
    intros Hrun Hpf Hann. apply (IH s1 s' Hrun).
    + destruct s as [ph sem tr]. unfold step in H1. cbn [phase semaphore trace] in *.
      destruct ph as [|t|]; [| |discriminate].
      * injection H1 as <-. unfold after_menu, _fetch_main_menu.
        destruct main_menu as [e|[|cat categories]];
          cbn [trace lift safe_api_call written raised fst snd map app];
          apply parents_first_app; auto; intros r q Hin; cbn in Hin;
          intuition discriminate.
      * destruct t as [cat d pid sh|subs|cat sh|cat sh|];
          try (destruct (step_task client_get resp_json p _ sem)
                 as [[[t' sem'] evs]|] eqn:Hs; [|discriminate];
               injection H1 as <-; cbn [trace];
               apply parents_first_app; [exact Hpf|];
               exact (proj1 (step_task_announced _ _ _ _ _ _ _ _ _ Hs Hann))).
        injection H1 as <-. cbn [trace]. apply parents_first_app; [exact Hpf|].
        intros r q Hin. cbn in Hin. intuition discriminate.
    + destruct s as [ph sem tr]. unfold step in H1. cbn [phase semaphore trace] in *.
      destruct ph as [|t|]; [| |discriminate].
      * injection H1 as <-. unfold after_menu, _fetch_main_menu.
        destruct main_menu as [e|[|cat categories]]; cbn [phase]; auto.
        constructor. apply Forall_forall. intros t Hin.
        apply list_elem_of_In, in_map_iff in Hin as (root & <- & _). constructor.
      * destruct t as [cat d pid sh|subs|cat sh|cat sh|];
          try (destruct (step_task client_get resp_json p _ sem)
                 as [[[t' sem'] evs]|] eqn:Hs; [|discriminate];
               injection H1 as <-; cbn [phase trace]; rewrite records_app;
               exact (proj2 (step_task_announced _ _ _ _ _ _ _ _ _ Hs Hann))).
        injection H1 as <-. exact I.
Qed.

(** X14. Under every schedule and at every moment of a run, a record
    that names a parent comes after a record with that id on the same
    sheet: a child is written after its parent and a facet after its
    leaf, so no row of the workbook points at a row below it. *)
Theorem parent_rows_come_first {Response} (client_get : string -> Exn + Response)
    (resp_json : Response -> Exn + PyVal) (main_menu : Exn + list Category)
    (sched : list (list nat)) (s : State) :
  run client_get resp_json main_menu sched initial = Some s ->
  parents_first (trace s).
Proof.
  intros Hrun. apply (run_parents_first _ _ _ _ _ _ Hrun); [|exact I].
  intros before r after p Heq. destruct before; discriminate.
Qed.

Lemma parent_rows_come_first_witness :
  run (Scenario.answers Scenario.one_facet) Scenario.decode (inr Scenario.forest)
      Scenario.subtree_first initial = Some Scenario.subtree_first_end /\
  parents_first (trace Scenario.subtree_first_end).
Proof.
  split; [reflexivity|].
  exact (parent_rows_come_first
           (Scenario.answers Scenario.one_facet) Scenario.decode
           (inr Scenario.forest) Scenario.subtree_first
           Scenario.subtree_first_end eq_refl).
Defined.

(** ** What the schedule cannot pull apart *)

Lemma lookups_under_unfold cat sheet :
  lookups_under cat sheet =
  if truthy_childs cat then flat_map (fun sub => lookups_under sub sheet) (children cat)
  else if has_lookup cat then [(cat, sheet)]
  else [].
Proof. destruct cat as [i n sh q u [[|sub subs]|]]; reflexivity. Qed.

Lemma in_one_piece_later block tr evs :
  in_one_piece block tr -> in_one_piece block (tr ++ evs).
Proof.
  intros (before & after & ->). exists before, (after ++ evs).
  now rewrite <- !app_assoc.
Qed.

Lemma in_one_piece_new block tr evs :
  in_one_piece block evs -> in_one_piece block (tr ++ evs).
Proof.
  intros (before & after & ->). exists (tr ++ before), after.
  now rewrite <- !app_assoc.
Qed.

Section Pieces.

Context {Response : Type}.
Variable client_get : string -> Exn + Response.
Variable resp_json : Response -> Exn + PyVal.

Local Abbreviation fetched_whole := (fetched_whole client_get resp_json).
Local Abbreviation lookups_settled := (lookups_settled client_get resp_json).

(** A step finishes at most one fetch, and its events are that fetch's
    events and nothing else. *)
Lemma step_task_lookups p : forall t sem t' sem' evs,
  step_task client_get resp_json p t sem = Some (t', sem', evs) ->
  exists fetched,
    fetched ++ pending_lookups t' ≡ₚ pending_lookups t /\
    Forall (fetched_whole evs) fetched.
Proof.
  induction p as [|i p IH]; intros t sem t' sem' evs; cbn [step_task].
  - destruct t as [cat d pid sh|subs|cat sh|cat sh|]; try discriminate.
    + intros [= Hstart]. exists []. split; [|constructor].
      unfold _recurse_start in Hstart. cbn [pending_lookups app].
      rewrite lookups_under_unfold.
      destruct (truthy_childs cat).
      * injection Hstart as <- _ _. cbn [pending_lookups].
        now rewrite flat_map_map_compose.
      * destruct (has_lookup cat).
        -- destruct sem; now injection Hstart as <- _ _.
        -- now injection Hstart as <- _ _.
    + destruct (forallb is_done subs) eqn:Hd; [|discriminate].
      intros [= <- _ _]. exists []. split; [|constructor].
      cbn [pending_lookups app]. clear - Hd.
      induction subs as [|[] subs IHs]; cbn in *; try discriminate; auto.
    + destruct sem; [discriminate|]. intros [= <- _ _].
      exists []. split; [reflexivity | constructor].
    + intros [= <- _ <-]. exists [(cat, sh)]. split; [reflexivity|].
      constructor; [|constructor]. exists [], []. cbn. now rewrite app_nil_r.
  - destruct t as [cat d pid sh|subs|cat sh|cat sh|]; try discriminate.
    destruct (subs !! i) as [sub|] eqn:Hi; [|discriminate].
    destruct (step_task client_get resp_json p sub sem)
      as [[[sub' sem1] evs1]|] eqn:Hs; [|discriminate].
    intros [= <- _ <-]. apply IH in Hs as (fetched & Hperm & Hwhole).
    exists fetched. split; [|exact Hwhole]. cbn [pending_lookups].
    now apply flat_map_insert_perm with (x := sub).
Qed.

Lemma run_lookups_settled forest sched : forall s s',
  run client_get resp_json (inr forest) sched s = Some s' ->
  lookups_settled forest s -> lookups_settled forest s'.
Proof.
  induction sched as [|p sched IH]; intros s s'; cbn [run].
  - now intros [= <-].
  - destruct (step client_get resp_json (inr forest) p s) as [s1|] eqn:H1;
      [|discriminate].
    intros Hrun Hs. apply (IH s1 s' Hrun). clear IH Hrun.
    destruct s as [ph sem tr]. unfold step, lookups_settled in *.
    cbn [phase semaphore trace] in *.
    destruct ph as [|t|]; [| |discriminate].
    + injection H1 as <-. unfold after_menu, _fetch_main_menu.
      destruct forest as [|root forest]; cbn [phase]; [constructor|].
      exists []. split; [|constructor]. unfold _process_all, forest_lookups.
      cbn [pending_lookups app]. now rewrite flat_map_map_compose.
    + destruct Hs as (fetched & Hperm & Hwhole).
      assert (forall t' sem' evs,
                step_task client_get resp_json p t sem = Some (t', sem', evs) ->
                exists fetched',
                  fetched' ++ pending_lookups t' ≡ₚ forest_lookups forest /\
                  Forall (fetched_whole (tr ++ evs)) fetched') as Hgen.
      { intros t' sem' evs Hstep.
        apply step_task_lookups in Hstep as (now_fetched & Hperm' & Hwhole').
        exists (fetched ++ now_fetched). split.
        - now rewrite <- app_assoc, Hperm'.
        - apply Forall_app. split.
          + eapply Forall_impl; [exact Hwhole|]. intros leaf.
            apply in_one_piece_later.
          + eapply Forall_impl; [exact Hwhole'|]. intros leaf.
            apply in_one_piece_new. }
      destruct t as [cat d pid sh|subs|cat sh|cat sh|];
        try (destruct (step_task client_get resp_json p _ sem)
               as [[[t' sem'] evs]|] eqn:Hstep; [|discriminate];
             injection H1 as <-; cbn [phase trace]; now eapply Hgen).
      injection H1 as <-. cbn [phase trace].
      cbn [pending_lookups] in Hperm. rewrite app_nil_r in Hperm.
      rewrite <- Hperm.
      eapply Forall_impl; [exact Hwhole|]. intros leaf. apply in_one_piece_later.
Qed.

(** Every lookup leaf of the forest is among the fetches of the walk. *)
Lemma lookups_under_occurrences cat : forall ancestors o,
  In o (occurrences_under ancestors cat) ->
  is_lookup_leaf (snd o) = true ->
  forall sheet, In (snd o, sheet) (lookups_under cat sheet).
Proof.
  induction cat as [cat IH] using Category_ind. intros ancestors o.
  rewrite occurrences_under_unfold. intros [<-|Hin] Hleaf sheet;
    rewrite lookups_under_unfold.
  - cbn [snd] in *. unfold is_lookup_leaf in Hleaf.
    apply andb_prop in Hleaf as [Hch ->]. apply negb_true_iff in Hch as ->.
    now left.
  - apply in_flat_map in Hin as (sub & Hsub & Hin).
    assert (truthy_childs cat = true) as ->
      by (unfold truthy_childs; destruct (children cat); [destruct Hsub | reflexivity]).
    apply in_flat_map. exists sub. split; [exact Hsub|].
    rewrite Forall_forall in IH.
    exact (IH sub (proj2 (list_elem_of_In _ _) Hsub) _ o Hin Hleaf sheet).
Qed.

End Pieces.

(** X15. The schedule cannot pull a fetch apart: in the trace of a
    finished run, for every lookup leaf of the forest, the facets
    [_fetch_items] wrote for it and its diagnostic, if any, stand next to
    one another in the order of the response, with no event of another
    coroutine between them. *)
Theorem fetch_written_in_one_piece {Response} (client_get : string -> Exn + Response)
    (resp_json : Response -> Exn + PyVal) (forest : list Category)
    (sched : list (list nat)) (s : State) (o : list Category * Category) :
  run client_get resp_json (inr forest) sched initial = Some s ->
  finished s = true ->
  In o (occurrences forest) ->
  is_lookup_leaf (snd o) = true ->
  in_one_piece (_fetch_items client_get resp_json (snd o) (cat_name (top_level o)))
               (trace s).
Proof.
  intros Hrun Hfin Ho Hleaf.
  pose proof (run_lookups_settled client_get resp_json forest sched _ _ Hrun I) as Hs.
  unfold lookups_settled in Hs. unfold finished in Hfin.
  destruct (phase s); try discriminate.
  rewrite Forall_forall in Hs.
  apply (Hs (snd o, cat_name (top_level o))), list_elem_of_In.
  unfold occurrences in Ho. apply in_flat_map in Ho as (root & Hroot & Ho).
  apply in_flat_map. exists root. split; [exact Hroot|].
  rewrite (occurrences_under_top root [] o Ho). cbn [hd].
  exact (lookups_under_occurrences root [] o Ho Hleaf (cat_name root)).
Qed.

Lemma fetch_written_in_one_piece_witness :
  run (Scenario.answers Scenario.broken_item) Scenario.decode (inr Scenario.forest)
      Scenario.roots_first initial = Some Scenario.broken_end /\
  finished Scenario.broken_end = true /\
  In ([], Scenario.B) (occurrences Scenario.forest) /\
  is_lookup_leaf Scenario.B = true /\
  in_one_piece [EWrite Scenario.F1; EError "_fetch_items" (AttributeError "int" "get")]
               (trace Scenario.broken_end).
Proof.
  split; [reflexivity|]. split; [reflexivity|]. split; [cbn; auto|].
  split; [reflexivity|].
  exact (fetch_written_in_one_piece
           (Scenario.answers Scenario.broken_item) Scenario.decode
           Scenario.forest Scenario.roots_first Scenario.broken_end
           ([], Scenario.B) eq_refl eq_refl
           (or_intror (or_intror (or_introl eq_refl))) eq_refl).
Defined.

Lemma filter_head {A} (f : A -> bool) (l : list A) (x : A) (rest : list A) :
  List.filter f l = x :: rest ->
  exists pre post,
    l = pre ++ x :: post /\ (forall y, In y pre -> f y = false) /\ f x = true.
Proof.
  induction l as [|a l IH]; cbn; [discriminate|].
  destruct (f a) eqn:Ha.
  - intros [= -> _]. exists [], l. repeat split; [intros y []|exact Ha].
  - intros Hf. destruct (IH Hf) as (pre & post & -> & Hpre & Hx).
    exists (a :: pre), post. repeat split; [|exact Hx].
    intros y [<-|Hy]; auto.
Qed.

Lemma records_split evs : forall pre r post,
  records evs = pre ++ r :: post ->
  exists before after, evs = before ++ EWrite r :: after /\ records before = pre.
Proof.
  induction evs as [|ev evs IH]; intros pre r post; cbn [records].
  - destruct pre; discriminate.
  - destruct ev as [r0|f e| | |f];
      try (intros H; destruct (IH _ _ _ H) as (before & after & -> & Hb);
           eexists (_ :: before), after; split; [reflexivity | exact Hb]).
    destruct pre as [|r1 pre]; cbn.
    + intros [= -> _]. exists [], evs. split; reflexivity.
    + intros [= -> H]. destruct (IH _ _ _ H) as (before & after & -> & Hb).
      exists (EWrite r1 :: before), after. split; [reflexivity|].
      cbn. now rewrite Hb.
Qed.

(** X16. Under every schedule and at every moment of a run, the first
    record written to a sheet names no parent: the first row below the
    header of every worksheet is a top-level row, with 0 as its parent. *)
Theorem first_row_has_no_parent {Response} (client_get : string -> Exn + Response)
    (resp_json : Response -> Exn + PyVal) (main_menu : Exn + list Category)
    (sched : list (list nat)) (s : State) (nm : string) (r : FlatRecord)
    (rest : list FlatRecord) :
  run client_get resp_json main_menu sched initial = Some s ->
  on_sheet nm (records (trace s)) = r :: rest ->
  r_parent r = None /\
  sheet_rows nm (sheets (excel_after (trace s)))
  = Some (HEADER :: [r_id r; r_name r; PInt (r_depth r); PInt 0] :: map row_of rest).
Proof.
  intros Hrun Hfirst.
  assert (r_parent r = None) as Hnone.
  { pose proof (run_parents_first _ _ _ _ _ _ Hrun) as Hpf.
    specialize (Hpf ltac:(intros before r0 after p Heq; destruct before; discriminate) I).
    unfold on_sheet in Hfirst.
    apply filter_head in Hfirst as (pre & post & Hrec & Hpre & Hr).
    apply String.eqb_eq in Hr.
    apply records_split in Hrec as (before & after & Htrace & <-).
    destruct (r_parent r) as [p|] eqn:Hp; [|reflexivity].
    destruct (Hpf before r after p Htrace Hp) as (r' & Hin & _ & Hsheet).
    specialize (Hpre r' Hin). apply String.eqb_neq in Hpre. congruence. }
  split; [exact Hnone|].
  unfold excel_after. rewrite sheet_rows_events, Hfirst. cbn.
  unfold row_of at 1. now rewrite Hnone.
Qed.

Lemma first_row_has_no_parent_witness :
  run (Scenario.answers Scenario.one_facet) Scenario.decode (inr Scenario.forest)
      Scenario.subtree_first initial = Some Scenario.subtree_first_end /\
  on_sheet "B" (records (trace Scenario.subtree_first_end))
  = [mkRecord "B" (PInt 3) (PStr "B") 1 None; Scenario.F1] /\
  sheet_rows "B" (sheets (excel_after (trace Scenario.subtree_first_end)))
  = Some [HEADER; [PInt 3; PStr "B"; PInt 1; PInt 0];
          [PInt 10; PStr "F1"; PInt 99; PInt 3]].
Proof.
  split; [reflexivity|]. split; [reflexivity|].
  exact (proj2 (first_row_has_no_parent
                  (Scenario.answers Scenario.one_facet) Scenario.decode
                  (inr Scenario.forest) Scenario.subtree_first
                  Scenario.subtree_first_end "B"
                  (mkRecord "B" (PInt 3) (PStr "B") 1 None) [Scenario.F1]
                  eq_refl eq_refl)).
Defined.
